(** * ads: selector resolution, facade and path cache

    A shallow embedding of [src/main/python/ads_helpers.py] (Python 2):
    the data model ([Service], [ServiceSet], [Project], [Profile]), the
    recursive selector resolver [_resolve] with its [OrderedDict] expansion
    stack, and the facade [Ads] ([resolve], [get_default_selector], [list]);
    further [_resolve_selectors], [Treelisting], the loaders of groups
    ([ServiceSet.load], [load_multiple], [load_default]) and the functions
    that find the manifests.

    Python objects that the resolver reaches through references live in an
    explicit heap; the resolver is written in a state-and-exception monad
    over that heap, so that what it writes (and what it leaves alone) is a
    theorem and not a convention. *)

From stdpp Require Import gmap strings list fin_maps sorting.

Set Warnings "-clear-no-such-hyp,-register-all".

Local Open Scope string_scope.
Local Open Scope list_scope.

(** ** Python values used by the code *)

(** [sep.join(l)]. *)
Fixpoint join (sep : string) (l : list string) : string :=
  match l with
  | [] => ""
  | x :: l' =>
      match l' with
      | [] => x
      | _ :: _ => x +:+ sep +:+ join sep l'
      end
  end.

(** [dict((key(s), s) for s in l)]: entries are inserted from left to right,
    so for a repeated key the last entry of [l] is the one that stays. *)
Definition dict_by {A : Type} (key : A → string) (l : list A) : gmap string A :=
  foldl (λ m s, <[key s := s]> m) ∅ l.

(** [reduce(f, l)] without an initial value: [None] stands for the
    [TypeError] that Python raises on an empty sequence. *)
Definition reduce {A : Type} (f : A → A → A) (l : list A) : option A :=
  match l with
  | [] => None
  | x :: l' => Some (foldl f x l')
  end.

(** [x or y] for an optional string [x]: [None] and the empty string are
    falsy. *)
Definition py_or (x : option string) (y : string) : string :=
  match x with
  | Some s => if bool_decide (s = "") then y else s
  | None => y
  end.

(** An [OrderedDict] whose values are all [True]: the keys, oldest first. *)
Abbreviation OrderedDict := (list string) (only parsing).

(** [d[k] = True]: a new key goes to the end, an old key keeps its place. *)
Definition setitem (k : string) (d : OrderedDict) : OrderedDict :=
  if bool_decide (k ∈ d) then d else d ++ [k].

(** [d.popitem(True)]: drops the newest key; [None] on an empty dict
    (Python raises [KeyError]). *)
Definition popitem_last (d : OrderedDict) : option OrderedDict :=
  match d with
  | [] => None
  | _ :: _ => Some (removelast d)
  end.

(** ** Data model *)

Module Service.
Record t := mk {
  name : string;
  home : string;
  description : option string;
  start_cmd : option string;
  stop_cmd : option string;
  status_cmd : option string;
  log_paths : list string;
  err_log_paths : list string
}.

(** [Service.__init__]: [log_paths or []]. *)
Definition init (name home : string)
    (description start_cmd stop_cmd status_cmd : option string)
    (log_paths err_log_paths : option (list string)) : t :=
  mk name home description start_cmd stop_cmd status_cmd
     (default [] log_paths) (default [] err_log_paths).

(** [self.description or "(No description)"] *)
Definition get_description_or_default (s : t) : string :=
  py_or (description s) "(No description)".
End Service.

Module ServiceSet.
Record t := mk {
  name : string;
  selectors : list string
}.
End ServiceSet.

Module Project.
Record t := mk {
  name : string;
  home : string;
  services_by_name : gmap string Service.t;
  service_sets : list ServiceSet.t;
  default_selector : string
}.

(** [Project.__init__]. *)
Definition init (name home : string)
    (services : option (list Service.t))
    (service_sets : option (list ServiceSet.t))
    (default_selector : string) : t :=
  mk name home
     (dict_by Service.name (default [] services))
     (default [] service_sets)
     default_selector.
End Project.

Module Profile.
Record t := mk {
  service_sets : list ServiceSet.t;
  default_selector : option string
}.

(** [Profile.__init__]. *)
Definition init (service_sets : option (list ServiceSet.t))
    (default_selector : option string) : t :=
  mk (default [] service_sets) default_selector.
End Profile.

(** ** Heap, exceptions and the monad *)

(** The objects a resolution can reach: the facade's project and profile
    ([self.project], [self.profile], passed on by reference as the
    [project] argument of [ServiceSet.resolve] and [_resolve]) and the
    [OrderedDict] that [ServiceSet.resolve] allocates and [_resolve]
    updates in place. *)
Record Heap := mkHeap {
  project : Project.t;
  profile : Profile.t;
  selector_stack : OrderedDict
}.

Definition with_stack (d : OrderedDict) (h : Heap) : Heap :=
  mkHeap (project h) (profile h) d.

Inductive exn :=
| BadSelectorException (msg : string)
| TypeError          (* reduce() of empty sequence with no initial value *)
| AssertionError
| KeyError (key : string)
| RuntimeError.      (* maximum recursion depth exceeded *)

Inductive result (A : Type) :=
| Return (a : A)
| Raise (e : exn).
Arguments Return {A} a.
Arguments Raise {A} e.

Definition M (A : Type) : Type := Heap → result A * Heap.

#[global] Instance M_ret : MRet M := λ A a h, (Return a, h).
#[global] Instance M_bind : MBind M := λ A B k m h,
  match m h with
  | (Return a, h') => k a h'
  | (Raise e, h') => (Raise e, h')
  end.
Definition raise {A} (e : exn) : M A := λ h, (Raise e, h).
Definition lift_result {A} (r : result A) : M A := λ h, (r, h).

Definition get_project : M Project.t := λ h, (Return (project h), h).
Definition get_profile : M Profile.t := λ h, (Return (profile h), h).
Definition get_stack : M OrderedDict := λ h, (Return (selector_stack h), h).
Definition put_stack (d : OrderedDict) : M unit :=
  λ h, (Return tt, with_stack d h).

(** [selector_stack[k] = True] *)
Definition stack_setitem (k : string) : M unit :=
  d ← get_stack ; put_stack (setitem k d).

(** [selector_stack.popitem(True)] *)
Definition stack_popitem : M unit :=
  d ← get_stack ;
  match popitem_last d with
  | Some d' => put_stack d'
  | None => raise (KeyError "dictionary is empty")
  end.

(** Python 2 [map(f, l)]: eager, left to right, the first exception ends it. *)
Fixpoint mapM {A B} (f : A → M B) (l : list A) : M (list B) :=
  match l with
  | [] => mret []
  | x :: l' => y ← f x ; ys ← mapM f l' ; mret (y :: ys)
  end.

(** ** The resolver *)

Definition circular_msg (stack_as_list : list string) : string :=
  "Definition of selector '" +:+ default "" (head stack_as_list)
    +:+ "' is circular: " +:+ join " -> " stack_as_list.

Definition unresolved_msg (selector : string) (stack_as_list : list string)
    : string :=
  "No service or selector named '" +:+ selector
    +:+ "'. Reference chain: " +:+ join " -> " stack_as_list.

(** [_resolve(selector, project, service_sets_by_name, selector_stack)].
    [depth] is the number of nested calls the interpreter still allows;
    [project] and [selector_stack] are read from the heap. *)
Fixpoint _resolve (depth : nat) (selector : string)
    (service_sets_by_name : gmap string ServiceSet.t) : M (gset string) :=
  match depth with
  | 0 => raise RuntimeError
  | S depth' =>
      if bool_decide (selector = "") then raise AssertionError else
      stack ← get_stack ;
      if bool_decide (selector ∈ stack) then
        raise (BadSelectorException (circular_msg (stack ++ [selector])))
      else
      p ← get_project ;
      if bool_decide (selector = "all") then
        mret (dom (Project.services_by_name p))
      else
      match Project.services_by_name p !! selector with
      | Some svc => mret {[ Service.name svc ]}
      | None =>
          match service_sets_by_name !! selector with
          | Some g =>
              stack_setitem selector ;;
              sub_results ←
                mapM (λ s, _resolve depth' s service_sets_by_name)
                     (ServiceSet.selectors g) ;
              stack_popitem ;;
              match reduce (∪) sub_results with
              | Some r => mret r
              | None => raise TypeError
              end
          | None =>
              stack ← get_stack ;
              raise (BadSelectorException
                       (unresolved_msg selector (stack ++ [selector])))
          end
      end
  end.

(** [ServiceSet.resolve(selector, project, service_sets)]: a fresh dict of
    the groups by name and a fresh, empty [OrderedDict].  The depth given
    to [_resolve] is one more than the number of groups, which
    [_resolve_depth_enough] below shows is never exhausted. *)
Definition ServiceSet_resolve (selector : string)
    (service_sets : list ServiceSet.t) : M (gset string) :=
  let service_sets_by_name := dict_by ServiceSet.name service_sets in
  put_stack [] ;;
  _resolve (S (size service_sets_by_name)) selector service_sets_by_name.

(** ** Treelisting *)

Module Treelisting.
(** One section: heading, listing dict, message for an empty listing. *)
Definition section : Type := string * gmap string string * option string.

(** [self.sections], in the order of the [with_section] calls. *)
Definition t : Type := list section.

Definition with_section (heading : string) (listing_dict : gmap string string)
    (empty_msg : option string) (self : t) : t :=
  self ++ [(heading, listing_dict, empty_msg)].

Fixpoint spaces (n : nat) : string :=
  match n with
  | 0 => ""
  | S n' => " " +:+ spaces n'
  end.

(** [("%" + str(width) + "s: %s") % (k, v)]: [k] right-justified. *)
Definition format_entry (width : nat) (k v : string) : string :=
  spaces (width - String.length k) +:+ k +:+ ": " +:+ v.

(** The heading line of a section; an empty listing without an
    [empty_msg] fails on ["\n " + None]. *)
Definition heading_line (s : section) : result string :=
  let '(heading, listing_dict, empty_msg) := s in
  let nl := String (Ascii.ascii_of_nat 10) "" in
  if bool_decide (listing_dict = ∅) then
    match empty_msg with
    | Some msg => Return (nl +:+ heading +:+ nl +:+ " " +:+ msg)
    | None => Raise TypeError
    end
  else Return (nl +:+ heading).

Fixpoint print_sections (width : nat) (l : list section)
    : result (list string) :=
  match l with
  | [] => Return []
  | s :: l' =>
      match heading_line s with
      | Raise e => Raise e
      | Return hd =>
          match print_sections width l' with
          | Raise e => Raise e
          | Return rest =>
              Return (hd :: ((λ kv, format_entry width kv.1 kv.2)
                               <$> map_to_list s.1.2) ++ rest)
          end
      end
  end.

(** [pretty_print]: the strings handed to [print], one per call.  The
    entries of a dict come in the order of [map_to_list]. *)
Definition pretty_print (self : t) : result (list string) :=
  let all_keys := self ≫= (λ s, (map_to_list s.1.2).*1) in
  if bool_decide (all_keys = []) then Return []
  else print_sections (S (max_list (String.length <$> all_keys))) self.
End Treelisting.

(** [Service.as_printable_dict(services)] *)
Definition Service_as_printable_dict (services : list Service.t)
    : gmap string string :=
  snd <$> dict_by fst
    ((λ s, (Service.name s, Service.get_description_or_default s))
       <$> services).

(** [ServiceSet.as_printable_dict(service_sets)] *)
Definition ServiceSet_as_printable_dict (service_sets : list ServiceSet.t)
    : gmap string string :=
  snd <$> dict_by fst
    ((λ s, (ServiceSet.name s, join ", " (ServiceSet.selectors s)))
       <$> service_sets).

(** ** Ads, the facade *)

(** [self.profile.default_selector or self.project.default_selector] *)
Definition Ads_get_default_selector : M string :=
  prof ← get_profile ;
  p ← get_project ;
  mret (py_or (Profile.default_selector prof) (Project.default_selector p)).

(** [Ads.resolve(self, selector)] *)
Definition Ads_resolve (selector : string) : M (gset string) :=
  selector ← (if bool_decide (selector = "default")
              then Ads_get_default_selector
              else mret selector) ;
  p ← get_project ;
  prof ← get_profile ;
  ServiceSet_resolve selector
    (Project.service_sets p ++ Profile.service_sets prof).

(** [try: body / except BadSelectorException: handler] *)
Definition except_BadSelectorException {A} (body handler : M A) : M A :=
  λ h, match body h with
       | (Raise (BadSelectorException _), h') => handler h'
       | r => r
       end.

(** [dict[key]] on the project's services. *)
Definition services_getitem (key : string) : M Service.t :=
  p ← get_project ;
  match Project.services_by_name p !! key with
  | Some svc => mret svc
  | None => raise (KeyError key)
  end.

(** The dict of the last section of the listing. *)
Definition Ads_default_section : M (gmap string string) :=
  default_selector ← Ads_get_default_selector ;
  default_description ←
    except_BadSelectorException
      (names ← Ads_resolve default_selector ;
       mret (join ", " (elements names)))
      (mret "(Unresolved)") ;
  default_description ←
    (if bool_decide (default_description = default_selector) then
       default_service ← services_getitem default_selector ;
       mret (Service.get_description_or_default default_service)
     else mret default_description) ;
  mret {[ default_selector := default_description ]}.

(** [Ads.list(self)]; the value is what [pretty_print] prints.  A frozenset
    is iterated in the order of [elements], a dict in that of
    [map_to_list]. *)
Definition Ads_list : M (list string) :=
  default_section ← Ads_default_section ;
  p ← get_project ;
  prof ← get_profile ;
  let listing :=
    Treelisting.with_section
      "Default service for commands if none are specified:"
      default_section None
    (Treelisting.with_section
      "Groups defined in your ads profile:"
      (ServiceSet_as_printable_dict (Profile.service_sets prof))
      (Some "None (add 'groups' to ~/.ads_profile.yml)")
    (Treelisting.with_section
      "Groups defined in current project:"
      (ServiceSet_as_printable_dict (Project.service_sets p))
      (Some "None (add 'groups' to adsroot.yml)")
    (Treelisting.with_section
      ("All services in current project (" +:+ Project.name p +:+ "):")
      (Service_as_printable_dict
         ((map_to_list (Project.services_by_name p)).*2))
      (Some "None (create ads.yml files in this dir tree)")
      []))) in
  lift_result (Treelisting.pretty_print listing).

(** ** Cache *)

Module Cache.
(** Modelled from the spec: the [Cache] class is not among the source
    files (only its unit tests are).  A cache holds the in-memory
    mapping of names to manifest paths and the content of the cache
    file, [None] while the file is absent. *)
Record t := mk {
  content : gmap string string;
  file : option (gmap string string)
}.

(** Modelled from the spec: [loadFromCache] of the missing [Cache] class;
    an absent file is a miss and gives the empty mapping. *)
Definition load_from_cache (file : option (gmap string string))
    : gmap string string :=
  default ∅ file.


(** Modelled from the spec: [get] of the missing [Cache] class.  The
    argument is a service, projected to its name, or a raw name; on a
    miss the live lookup [discover] answers and its answer is written
    through to the in-memory mapping. *)
Definition get (discover : string → string) (key : Service.t + string)
    (c : t) : string * t :=
  let name := match key with
              | inl s => Service.name s
              | inr n => n
              end in
  match content c !! name with
  | Some path => (path, c)
  | None =>
      let path := discover name in
      (path, mk (<[name := path]> (content c)) (file c))
  end.
End Cache.

(** ** Vocabulary of the properties *)

Definition same_objects (h h' : Heap) : Prop :=
  project h' = project h ∧ profile h' = profile h.

(** The groups that are not being expanded. *)
Definition unexpanded (ssbn : gmap string ServiceSet.t) (stack : list string)
    : nat :=
  size (dom ssbn ∖ list_to_set stack).

(** A selector that reaches the group branch. *)
Definition expandable (p : Project.t) (ssbn : gmap string ServiceSet.t)
    (sel : string) (g : ServiceSet.t) : Prop :=
  sel ≠ "" ∧ sel ≠ "all" ∧ Project.services_by_name p !! sel = None
  ∧ ssbn !! sel = Some g.

(** The first selector of the group named [x]. *)
Definition first_member (ssbn : gmap string ServiceSet.t) (x : string)
    : option string :=
  g ← ssbn !! x ; head (ServiceSet.selectors g).

(** Every selector of [path] reaches the group branch and has the next one
    as its first member; the last one has [last]. *)
Fixpoint first_member_path (p : Project.t) (ssbn : gmap string ServiceSet.t)
    (path : list string) (last : string) : Prop :=
  match path with
  | [] => True
  | x :: rest =>
      x ≠ "" ∧ x ≠ "all" ∧ Project.services_by_name p !! x = None
      ∧ first_member ssbn x = Some (default last (head rest))
      ∧ first_member_path p ssbn rest last
  end.

(** *** Example projects *)

Definition example_service (n : string) : Service.t :=
  Service.init n ("/srv/demo/" +:+ n) None None None None None None.

(** Services [api], [db], [web]; the groups are given with each heap. *)
Definition example_project (service_sets : list ServiceSet.t) : Project.t :=
  Project.init "demo" "/srv/demo"
    (Some [example_service "api"; example_service "db"; example_service "web"])
    (Some service_sets) "all".

Definition example_heap (service_sets : list ServiceSet.t) : Heap :=
  mkHeap (example_project service_sets) (Profile.init None None) [].

(** web_stack = [api, web], everything = [web_stack, db]. *)
Definition scenario_groups : list ServiceSet.t :=
  [ServiceSet.mk "web_stack" ["api"; "web"];
   ServiceSet.mk "everything" ["web_stack"; "db"]].

(** A group whose name is also the name of a service. *)
Definition shadowed_groups : list ServiceSet.t :=
  [ServiceSet.mk "web" ["db"]].

(** A group without members. *)
Definition empty_group : list ServiceSet.t := [ServiceSet.mk "nothing" []].

(** a = [b], b = [c], c = [b]: the cycle is b -> c -> b, reached from a. *)
Definition lasso_groups : list ServiceSet.t :=
  [ServiceSet.mk "a" ["b"]; ServiceSet.mk "b" ["c"]; ServiceSet.mk "c" ["b"]].

(** a = [b], b = [a]. *)
Definition cycle_groups : list ServiceSet.t :=
  [ServiceSet.mk "a" ["b"]; ServiceSet.mk "b" ["a"]].

(** A group whose first member leads to a name that nothing defines. *)
Definition dangling_groups : list ServiceSet.t :=
  [ServiceSet.mk "outer" ["inner"; "api"];
   ServiceSet.mk "inner" ["nonexistent"]].

Definition backend_project : Project.t :=
  Project.init "demo" "/srv/demo"
    (Some [example_service "api"; example_service "db"])
    (Some [ServiceSet.mk "backend" ["api"; "db"]]) "backend".

Definition mine_profile : Profile.t :=
  Profile.init (Some [ServiceSet.mk "mine" ["db"]]) (Some "mine").


(** The default selector is the string "(Unresolved)", which names nothing. *)
Definition unresolved_default_heap : Heap :=
  mkHeap
    (Project.init "demo" "/srv/demo" (Some [example_service "api"]) None
       "(Unresolved)")
    (Profile.init None None)
    [].

(** The default selector is a group without members. *)
Definition empty_default_heap : Heap :=
  mkHeap
    (Project.init "demo" "/srv/demo" (Some [example_service "api"])
       (Some [ServiceSet.mk "nothing" []]) "nothing")
    (Profile.init None None)
    [].

(** *** Vocabulary of the further properties *)

(** Every service is filed under its own name, as [Project.__init__] does. *)
Definition filed_by_name (p : Project.t) : Prop :=
  ∀ k svc, Project.services_by_name p !! k = Some svc → Service.name svc = k.

(** [denotes p ssbn sel n]: the selector [sel] stands for the service name
    [n], read off the group graph: "all" stands for every service, the name
    of a service for that service, and a name that reaches the group branch
    for whatever its members stand for. *)
Inductive denotes (p : Project.t) (ssbn : gmap string ServiceSet.t)
    : string → string → Prop :=
| denotes_all n :
    n ∈ dom (Project.services_by_name p) → denotes p ssbn "all" n
| denotes_service sel svc :
    sel ≠ "" → sel ≠ "all" → Project.services_by_name p !! sel = Some svc →
    denotes p ssbn sel (Service.name svc)
| denotes_group sel g m n :
    expandable p ssbn sel g → m ∈ ServiceSet.selectors g →
    denotes p ssbn m n → denotes p ssbn sel n.

(** Each selector of the chain but the last names a group of which the next
    one is a member. *)
Fixpoint member_chain (ssbn : gmap string ServiceSet.t) (chain : list string)
    : Prop :=
  match chain with
  | [] => True
  | a :: rest =>
      match rest with
      | [] => True
      | b :: _ =>
          (∃ g, ssbn !! a = Some g ∧ b ∈ ServiceSet.selectors g)
          ∧ member_chain ssbn rest
      end
  end.

(** ** Commands *)

(** Python 2 orders [str] values byte by byte, a proper prefix first. *)
Definition str_le (a b : string) : Prop := String.leb a b = true.

#[global] Instance str_le_dec (a b : string) : Decision (str_le a b) :=
  decide (String.leb a b = true).

(** [sorted(names)] *)
Definition sorted (names : list string) : list string :=
  merge_sort str_le names.

(** What a command raises: an [AdsCommandException], with its exit code and
    message, or an exception that nothing has caught. *)
Inductive command_exn :=
| AdsCommandException (exit_code : nat) (msg : option string)
| Uncaught (e : exn).

(** [NotFound(msg)] *)
Definition NotFound (msg : string) : command_exn :=
  AdsCommandException 11 (Some msg).

Inductive command_result (A : Type) :=
| Done (a : A)
| Failed (e : command_exn).
Arguments Done {A} a.
Arguments Failed {A} e.

(** [_resolve_selectors(ads, selectors, fail_if_empty)]; [ads] is the
    facade of the heap.  The frozenset of names is enumerated in the order
    of [elements] before it is sorted. *)
Definition _resolve_selectors (selectors : list string) (fail_if_empty : bool)
    (h : Heap) : command_result (list Service.t) * Heap :=
  let selectors :=
    if bool_decide (length selectors = 0) then ["default"] else selectors in
  match mapM Ads_resolve selectors h with
  | (Raise (BadSelectorException msg), h1) => (Failed (NotFound msg), h1)
  | (Raise e, h1) => (Failed (Uncaught e), h1)
  | (Return sets, h1) =>
      match reduce (∪) sets with
      | None => (Failed (Uncaught TypeError), h1)
      | Some service_names =>
          match mapM services_getitem (sorted (elements service_names)) h1 with
          | (Raise e, h2) => (Failed (Uncaught e), h2)
          | (Return services, h2) =>
              if fail_if_empty && bool_decide (length services = 0) then
                (Failed (NotFound ("No services found that match '"
                                   +:+ join " " selectors +:+ "'")), h2)
              else (Done services, h2)
          end
      end
  end.

(** ** Parsed manifests *)

(** A document as [yaml.safe_load] hands it over: [None], booleans,
    integers, [str] values, lists, and dicts with [str] keys. *)
Inductive yaml :=
| YNone
| YBool (b : bool)
| YInt (n : Z)
| YStr (s : string)
| YList (items : list yaml)
| YDict (entries : gmap string yaml).

(** The types that [_expect] is asked for. *)
Inductive py_type := py_dict | py_list | py_str.

(** [isinstance(actual, expected_type)] *)
Definition isinstance (actual : yaml) (expected_type : py_type) : bool :=
  match expected_type, actual with
  | py_dict, YDict _ => true
  | py_list, YList _ => true
  | py_str, YStr _ => true
  | _, _ => false
  end.

(** The truth value of a document: [None], [False], [0], the empty string,
    list and dict are falsy. *)
Definition truthy (v : yaml) : bool :=
  match v with
  | YNone => false
  | YBool b => b
  | YInt n => bool_decide (n ≠ 0%Z)
  | YStr s => bool_decide (s ≠ "")
  | YList items => bool_decide (items ≠ [])
  | YDict entries => bool_decide (entries ≠ ∅)
  end.

(** A loader returns, or raises [ParseProjectException]; the exception
    carries what its message is formatted from: the file, the expected
    type and the actual value. *)
Inductive load_result (A : Type) :=
| Loaded (a : A)
| ParseProjectException (origin_file : string) (expected_type : py_type)
    (actual : yaml).
Arguments Loaded {A} a.
Arguments ParseProjectException {A} origin_file expected_type actual.

(** [_expect(expected_type, actual, origin_file)] *)
Definition _expect (expected_type : py_type) (actual : yaml)
    (origin_file : string) : load_result unit :=
  if isinstance actual expected_type then Loaded tt
  else ParseProjectException origin_file expected_type actual.

(** The loop of [ServiceSet.load]: every item is checked to be a [str] and
    appended. *)
Fixpoint load_selectors (spec : list yaml) (origin_file : string)
    : load_result (list string) :=
  match spec with
  | [] => Loaded []
  | selector :: spec' =>
      match _expect py_str selector origin_file, selector with
      | Loaded _, YStr s =>
          match load_selectors spec' origin_file with
          | Loaded selectors => Loaded (s :: selectors)
          | ParseProjectException f t v => ParseProjectException f t v
          end
      | Loaded _, _ => ParseProjectException origin_file py_str selector
      | ParseProjectException f t v, _ => ParseProjectException f t v
      end
  end.

(** [ServiceSet.load(name, spec, origin_file)] *)
Definition ServiceSet_load (name : string) (spec : yaml) (origin_file : string)
    : load_result ServiceSet.t :=
  match _expect py_list spec origin_file, spec with
  | Loaded _, YList items =>
      match load_selectors items origin_file with
      | Loaded selectors => Loaded (ServiceSet.mk name selectors)
      | ParseProjectException f t v => ParseProjectException f t v
      end
  | Loaded _, _ => ParseProjectException origin_file py_list spec
  | ParseProjectException f t v, _ => ParseProjectException f t v
  end.

(** The list comprehension of [ServiceSet.load_multiple]. *)
Fixpoint load_items (items : list (string * yaml)) (origin_file : string)
    : load_result (list ServiceSet.t) :=
  match items with
  | [] => Loaded []
  | (name, value) :: items' =>
      match ServiceSet_load name value origin_file with
      | Loaded g =>
          match load_items items' origin_file with
          | Loaded gs => Loaded (g :: gs)
          | ParseProjectException f t v => ParseProjectException f t v
          end
      | ParseProjectException f t v => ParseProjectException f t v
      end
  end.

(** [ServiceSet.load_multiple(spec, origin_file)]; the items of the dict
    come in the order of [map_to_list]. *)
Definition ServiceSet_load_multiple (spec : yaml) (origin_file : string)
    : load_result (list ServiceSet.t) :=
  let spec := if truthy spec then spec else YDict ∅ in
  match _expect py_dict spec origin_file, spec with
  | Loaded _, YDict entries => load_items (map_to_list entries) origin_file
  | Loaded _, _ => ParseProjectException origin_file py_dict spec
  | ParseProjectException f t v, _ => ParseProjectException f t v
  end.

(** [ServiceSet.load_default(spec, origin_file)] *)
Definition ServiceSet_load_default (spec : yaml) (origin_file : string)
    : load_result (option string) :=
  if negb (truthy spec) then Loaded None
  else
    match _expect py_str spec origin_file, spec with
    | Loaded _, YStr s => Loaded (Some s)
    | Loaded _, _ => ParseProjectException origin_file py_str spec
    | ParseProjectException f t v, _ => ParseProjectException f t v
    end.

(** ** Finding the manifests *)

(** The functions of [os.path] ([join], [dirname], [basename]) and the
    file system ([os.path.isfile]) are arguments of the functions below;
    [posix_join], [posix_dirname] and [posix_basename] are their POSIX
    versions, for paths as strings of characters. *)

Definition is_slash (c : Ascii.ascii) : bool :=
  bool_decide (c = Ascii.ascii_of_nat 47).

Fixpoint has_slash (p : string) : bool :=
  match p with
  | EmptyString => false
  | String c p' => is_slash c || has_slash p'
  end.

Fixpoint all_slashes (p : string) : bool :=
  match p with
  | EmptyString => true
  | String c p' => is_slash c && all_slashes p'
  end.

(** [p[p.rfind('/') + 1:]] *)
Fixpoint posix_basename (p : string) : string :=
  match p with
  | EmptyString => EmptyString
  | String c p' =>
      if has_slash p' then posix_basename p'
      else if is_slash c then p' else p
  end.

(** [p[:p.rfind('/') + 1]] *)
Fixpoint up_to_last_slash (p : string) : string :=
  match p with
  | EmptyString => EmptyString
  | String c p' =>
      if has_slash p' then String c (up_to_last_slash p')
      else if is_slash c then String c EmptyString else EmptyString
  end.

(** [p.rstrip('/')] *)
Fixpoint rstrip_slashes (p : string) : string :=
  match p with
  | EmptyString => EmptyString
  | String c p' =>
      if all_slashes p' then (if is_slash c then EmptyString
                              else String c EmptyString)
      else String c (rstrip_slashes p')
  end.

(** [posixpath.dirname]: the part up to the last slash, without its
    trailing slashes unless it consists of slashes only. *)
Definition posix_dirname (p : string) : string :=
  let head := up_to_last_slash p in
  if all_slashes head then head else rstrip_slashes head.

Fixpoint ends_with_slash (p : string) : bool :=
  match p with
  | EmptyString => false
  | String c EmptyString => is_slash c
  | String _ p' => ends_with_slash p'
  end.

(** [posixpath.join(a, b)] *)
Definition posix_join (a b : string) : string :=
  match b with
  | String c _ =>
      if is_slash c then b
      else if bool_decide (a = "") || ends_with_slash a then a +:+ b
      else a +:+ "/" +:+ b
  | EmptyString =>
      if bool_decide (a = "") || ends_with_slash a then a else a +:+ "/"
  end.

(** [_find_project_yml(search_start)]; [depth] is the number of nested
    calls the interpreter still allows. *)
Fixpoint _find_project_yml (depth : nat)
    (join : string → string → string) (dirname : string → string)
    (isfile : string → bool) (search_start : string)
    : result (option string) :=
  match depth with
  | 0 => Raise RuntimeError
  | S depth' =>
      let maybe_root := join search_start "adsroot.yml" in
      if isfile maybe_root then Return (Some maybe_root)
      else
        let parent := dirname search_start in
        if bool_decide (parent = search_start) then Return None
        else _find_project_yml depth' join dirname isfile parent
  end.

(** What a function that raises a plain [Exception] gives. *)
Inductive outcome (A : Type) :=
| Returned (a : A)
| Exception (msg : string).
Arguments Returned {A} a.
Arguments Exception {A} msg.

(** The loop of [_adsfiles_to_service_names], over the two dicts. *)
Fixpoint adsfiles_loop (service_name : string → string)
    (adsfiles : list string)
    (svc_name_to_file file_to_svc_name : gmap string string)
    : outcome (gmap string string) :=
  match adsfiles with
  | [] => Returned file_to_svc_name
  | f :: adsfiles' =>
      let basename := service_name f in
      if bool_decide (basename ∈ dom svc_name_to_file) then
        Exception "not yet implemented"
      else
        adsfiles_loop service_name adsfiles'
          (<[basename := f]> svc_name_to_file)
          (<[f := basename]> file_to_svc_name)
  end.

(** [_adsfiles_to_service_names(adsfiles)] *)
Definition _adsfiles_to_service_names (basename dirname : string → string)
    (adsfiles : list string) : outcome (gmap string string) :=
  adsfiles_loop (λ f, basename (dirname f)) adsfiles ∅ ∅.

(** [path_str.startswith(dir_path)] *)
Definition startswith (path_str dir_path : string) : bool :=
  String.prefix dir_path path_str.

(** [_find_service_ymls(project_root)], from the lines that the [find]
    command has printed. *)
Definition _find_service_ymls (join : string → string → string)
    (dirname basename : string → string)
    (find_output : list string) (project_root : string) : list string :=
  let nested_project_dirs :=
    dirname <$> filter (λ path, basename path = "adsroot.yml") find_output in
  let in_nested_project_dir path_str :=
    existsb (λ dir_path, startswith path_str dir_path) nested_project_dirs in
  join project_root <$>
    filter (λ p, basename p = "ads.yml" ∧ in_nested_project_dir p = false)
      find_output.

(** * Properties *)

(** ** Python values *)

Lemma dict_by_snoc {A} (key : A → string) (l : list A) (x : A) :
  dict_by key (l ++ [x]) = <[key x := x]> (dict_by key l).
Proof. unfold dict_by. by rewrite foldl_app. Qed.

Lemma dict_by_app_lookup {A} (key : A → string) (l1 l2 : list A) (k : string) :
  dict_by key (l1 ++ l2) !! k =
    match dict_by key l2 !! k with
    | Some v => Some v
    | None => dict_by key l1 !! k
    end.
Proof.
  induction l2 as [|x l2 IH] using rev_ind.
  - by rewrite app_nil_r.
  - rewrite app_assoc, !dict_by_snoc.
    destruct (decide (key x = k)) as [->|Hne].
    + by rewrite !lookup_insert_eq.
    + by rewrite !lookup_insert_ne.
Qed.

Lemma dict_by_lookup_key {A} (key : A → string) (l : list A) (k : string) (v : A) :
  dict_by key l !! k = Some v → key v = k ∧ v ∈ l.
Proof.
  induction l as [|x l IH] using rev_ind; [done|].
  rewrite dict_by_snoc.
  destruct (decide (key x = k)) as [<-|Hne].
  - rewrite lookup_insert_eq. intros [= <-]. split; [done|set_solver].
  - rewrite lookup_insert_ne by done. intros [? ?]%IH. split; [done|set_solver].
Qed.

Lemma dict_by_dom {A} (key : A → string) (l : list A) :
  dom (dict_by key l) = list_to_set (key <$> l).
Proof.
  induction l as [|x l IH] using rev_ind; [set_solver|].
  rewrite dict_by_snoc, dom_insert_L, IH, fmap_app, list_to_set_app_L.
  set_solver.
Qed.

Lemma Forall2_impl_elem_of {A B} (P Q : A → B → Prop) (l : list A)
    (k : list B) :
  Forall2 P l k → (∀ x y, x ∈ l → P x y → Q x y) → Forall2 Q l k.
Proof.
  induction 1 as [|x y l k Hxy _ IH]; intros Himpl; constructor.
  - apply Himpl; [left|done].
  - apply IH. intros x' y' Hin. apply Himpl. by right.
Qed.

Lemma reduce_union (l : list (gset string)) :
  l ≠ [] → reduce (∪) l = Some (⋃ l).
Proof.
  destruct l as [|x l]; [done|]. intros _. simpl. f_equal.
  revert x. induction l as [|y l IH]; intros x; simpl.
  - set_solver.
  - rewrite IH. set_solver.
Qed.

Arguments popitem_last : simpl never.

Lemma removelast_snoc {A} (l : list A) (x : A) : removelast (l ++ [x]) = l.
Proof. apply removelast_last. Qed.

Lemma popitem_last_snoc (d : list string) (k : string) :
  popitem_last (d ++ [k]) = Some d.
Proof.
  unfold popitem_last. rewrite removelast_snoc. by destruct d.
Qed.

Lemma with_stack_id (h : Heap) : with_stack (selector_stack h) h = h.
Proof. by destruct h. Qed.

Lemma with_stack_twice (d d' : list string) (h : Heap) :
  with_stack d (with_stack d' h) = with_stack d h.
Proof. done. Qed.

(** ** The monad *)

Ltac unfold_M :=
  unfold mbind, M_bind, mret, M_ret, raise, lift_result, get_stack,
    get_project, get_profile, put_stack, stack_setitem, stack_popitem in *.

Section mapM.
Context {A B : Type} (f : A → M B).

Lemma mapM_cons (x : A) (l : list A) (h : Heap) :
  mapM f (x :: l) h =
    match f x h with
    | (Return y, h') =>
        match mapM f l h' with
        | (Return ys, h'') => (Return (y :: ys), h'')
        | (Raise e, h'') => (Raise e, h'')
        end
    | (Raise e, h') => (Raise e, h')
    end.
Proof.
  simpl. unfold_M. destruct (f x h) as [[y|e] h']; [|done].
  by destruct (mapM f l h') as [[ys|e] h''].
Qed.

(** When every call gives the heap back as it found it, a [map] that
    returns has made each call on the initial heap. *)
Lemma mapM_Return_inv (l : list A) (h h' : Heap) (rs : list B) :
  (∀ x h0 r h1, x ∈ l → f x h0 = (Return r, h1) → h1 = h0) →
  mapM f l h = (Return rs, h') →
  h' = h ∧ Forall2 (λ x r, f x h = (Return r, h)) l rs.
Proof.
  revert rs. induction l as [|x l IH]; intros rs Hf.
  - intros [= <- <-]. by split.
  - rewrite mapM_cons.
    destruct (f x h) as [[y|e] h1] eqn:Hx; [|done].
    assert (h1 = h) as -> by (eapply Hf; [left|done]).
    destruct (mapM f l h) as [[ys|e] h2] eqn:Hl; [|done].
    intros [= <- <-].
    destruct (IH ys) as [-> Hall]; [intros; eapply Hf; [by right|done]|done|].
    split; [done|]. by constructor.
Qed.

Lemma mapM_Return_intro (l : list A) (h : Heap) (rs : list B) :
  Forall2 (λ x r, f x h = (Return r, h)) l rs →
  mapM f l h = (Return rs, h).
Proof.
  induction 1 as [|x r l rs Hx _ IH]; [done|].
  by rewrite mapM_cons, Hx, IH.
Qed.

(** A [map] that raises passes on the exception of one of its calls,
    made on the initial heap. *)
Lemma mapM_Raise_inv (l : list A) (h h' : Heap) (e : exn) :
  (∀ x h0 r h1, x ∈ l → f x h0 = (Return r, h1) → h1 = h0) →
  mapM f l h = (Raise e, h') →
  ∃ x, x ∈ l ∧ f x h = (Raise e, h').
Proof.
  induction l as [|x l IH]; intros Hf; [done|].
  rewrite mapM_cons.
  destruct (f x h) as [[y|e'] h1] eqn:Hx.
  - assert (h1 = h) as -> by (eapply Hf; [left|done]).
    destruct (mapM f l h) as [[ys|e'] h2] eqn:Hl; [done|].
    intros [= <- <-].
    destruct IH as (x' & ? & ?); [intros; eapply Hf; [by right|done]|done|].
    exists x'. split; [by right|done].
  - intros [= <- <-]. exists x. split; [left|done].
Qed.
End mapM.

(** ** One call of the resolver *)

Arguments _resolve : simpl never.


Lemma _resolve_S d sel (ssbn : gmap string ServiceSet.t) h :
  _resolve (S d) sel ssbn h =
    if bool_decide (sel = "") then (Raise AssertionError, h) else
    if bool_decide (sel ∈ selector_stack h) then
      (Raise (BadSelectorException
                (circular_msg (selector_stack h ++ [sel]))), h)
    else if bool_decide (sel = "all") then
      (Return (dom (Project.services_by_name (project h))), h)
    else
      match Project.services_by_name (project h) !! sel with
      | Some svc => (Return {[ Service.name svc ]}, h)
      | None =>
          match ssbn !! sel with
          | Some g =>
              match mapM (λ s, _resolve d s ssbn) (ServiceSet.selectors g)
                      (with_stack (selector_stack h ++ [sel]) h) with
              | (Return rs, h2) =>
                  match popitem_last (selector_stack h2) with
                  | Some st =>
                      (match reduce (∪) rs with
                       | Some r => Return r
                       | None => Raise TypeError
                       end, with_stack st h2)
                  | None => (Raise (KeyError "dictionary is empty"), h2)
                  end
              | (Raise e, h2) => (Raise e, h2)
              end
          | None =>
              (Raise (BadSelectorException
                        (unresolved_msg sel (selector_stack h ++ [sel]))), h)
          end
      end.
Proof.
  unfold _resolve; fold _resolve. unfold_M. unfold setitem.
  repeat case_bool_decide; try done.
  destruct (Project.services_by_name (project h) !! sel); [done|].
  destruct (ssbn !! sel) as [g|]; [|done]. simpl.
  rewrite bool_decide_eq_false_2 by done.
  destruct (mapM _ _ _) as [[rs|e] h2]; [|done].
  unfold_M. simpl.
  destruct (popitem_last _); [|done].
  by destruct (reduce _ _).
Qed.

(** ** The expansion stack is given back *)

(** A call that returns leaves the whole heap as it found it: every key it
    put on the expansion stack has been popped again. *)
Lemma _resolve_Return_heap d sel ssbn h r h' :
  _resolve d sel ssbn h = (Return r, h') → h' = h.
Proof.
  revert sel h r h'. induction d as [|d IH]; intros sel h r h'; [done|].
  rewrite _resolve_S. repeat case_bool_decide; try done.
  - by intros [= _ <-].
  - destruct (Project.services_by_name (project h) !! sel);
      [by intros [= _ <-]|].
    destruct (ssbn !! sel) as [g|]; [|done].
    destruct (mapM _ _ _) as [[rs|e] h2] eqn:Hmap; [|done].
    apply mapM_Return_inv in Hmap as [-> _]; [|intros; by eapply IH].
    simpl. rewrite popitem_last_snoc, with_stack_twice, with_stack_id.
    by intros [= _ <-].
Qed.

(** ** Project and profile are only read *)

Lemma same_objects_refl h : same_objects h h.
Proof. done. Qed.

Lemma same_objects_trans h1 h2 h3 :
  same_objects h1 h2 → same_objects h2 h3 → same_objects h1 h3.
Proof. intros [? ?] [? ?]. split; congruence. Qed.

Lemma same_objects_with_stack d h : same_objects h (with_stack d h).
Proof. done. Qed.

Lemma mapM_same_objects {A B} (f : A → M B) (l : list A) (h : Heap) :
  (∀ x h0, same_objects h0 (f x h0).2) → same_objects h (mapM f l h).2.
Proof.
  intros Hf. revert h. induction l as [|x l IH]; intros h; [done|].
  rewrite mapM_cons. specialize (Hf x h).
  destruct (f x h) as [[y|e] h1]; [|done].
  specialize (IH h1).
  destruct (mapM f l h1) as [[ys|e] h2]; by eapply same_objects_trans.
Qed.

Lemma _resolve_same_objects d sel ssbn h :
  same_objects h (_resolve d sel ssbn h).2.
Proof.
  revert sel h. induction d as [|d IH]; intros sel h; [done|].
  rewrite _resolve_S. repeat case_bool_decide; try done.
  destruct (Project.services_by_name (project h) !! sel); [done|].
  destruct (ssbn !! sel) as [g|]; [|done].
  pose proof (mapM_same_objects (λ s, _resolve d s ssbn)
                (ServiceSet.selectors g)
                (with_stack (selector_stack h ++ [sel]) h)
                (λ x h0, IH x h0)) as Hmap.
  destruct (mapM _ _ _) as [[rs|e] h2]; [|done].
  by destruct (popitem_last _).
Qed.

(** ** The depth given by [ServiceSet.resolve] is enough *)

Lemma unexpanded_push (ssbn : gmap string ServiceSet.t) stack sel :
  is_Some (ssbn !! sel) → sel ∉ stack →
  unexpanded ssbn (stack ++ [sel]) < unexpanded ssbn stack.
Proof.
  intros Hin%elem_of_dom Hnot. unfold unexpanded.
  apply subset_size. rewrite list_to_set_app_L.
  apply strict_spec_alt. split; [set_solver|].
  intros Heq. assert (sel ∈ dom ssbn ∖ list_to_set (C:=gset string) stack)
    as Hsel by set_solver.
  rewrite <-Heq in Hsel. set_solver.
Qed.

Lemma unexpanded_nil (ssbn : gmap string ServiceSet.t) :
  unexpanded ssbn [] = size ssbn.
Proof.
  unfold unexpanded. simpl. rewrite difference_empty_L.
  apply size_dom.
Qed.

(** With more depth than there are groups left to expand, the recursion
    never runs out. *)
Lemma _resolve_depth_enough d sel ssbn h :
  unexpanded ssbn (selector_stack h) < d →
  (_resolve d sel ssbn h).1 ≠ Raise RuntimeError.
Proof.
  revert sel h. induction d as [|d IH]; intros sel h Hd; [lia|].
  rewrite _resolve_S. repeat case_bool_decide; try done.
  destruct (Project.services_by_name (project h) !! sel); [done|].
  destruct (ssbn !! sel) as [g|] eqn:Hg; [|done].
  destruct (mapM _ _ _) as [[rs|e] h2] eqn:Hmap.
  - destruct (popitem_last _); [|done]. by destruct (reduce _ _).
  - apply mapM_Raise_inv in Hmap as (x & _ & Hx);
      [|intros; by eapply _resolve_Return_heap].
    simpl. intros [= ->].
    eapply (IH x); [|by rewrite Hx]. simpl.
    assert (unexpanded ssbn (selector_stack h ++ [sel])
              < unexpanded ssbn (selector_stack h)) as Hlt
      by (apply unexpanded_push; [by eexists|done]).
    lia.
Qed.

Lemma mapM_ext_RuntimeError {A B} (f g : A → M B) (l : list A) (h : Heap) :
  (∀ x h0, (f x h0).1 ≠ Raise RuntimeError → g x h0 = f x h0) →
  (mapM f l h).1 ≠ Raise RuntimeError →
  mapM g l h = mapM f l h.
Proof.
  intros Hfg. revert h. induction l as [|x l IH]; intros h; [done|].
  rewrite !mapM_cons. specialize (Hfg x h).
  destruct (f x h) as [[y|e] h1].
  - rewrite Hfg by (simpl; congruence). specialize (IH h1).
    destruct (mapM f l h1) as [[ys|e] h2]; intros Hne.
    + by rewrite IH by (simpl; congruence).
    + by rewrite IH.
  - simpl. intros Hne. by rewrite Hfg by (simpl; congruence).
Qed.

(** More depth does not change a result that did not run out of depth. *)
Lemma _resolve_depth_S d sel ssbn h :
  (_resolve d sel ssbn h).1 ≠ Raise RuntimeError →
  _resolve (S d) sel ssbn h = _resolve d sel ssbn h.
Proof.
  revert sel h. induction d as [|d IH]; intros sel h; [done|].
  rewrite (_resolve_S (S d)), (_resolve_S d).
  repeat case_bool_decide; try done.
  destruct (Project.services_by_name (project h) !! sel); [done|].
  destruct (ssbn !! sel) as [g|]; [|done].
  intros Hne.
  rewrite (mapM_ext_RuntimeError (λ s, _resolve d s ssbn)
             (λ s, _resolve (S d) s ssbn)); [done|by intros; apply IH|].
  destruct (mapM _ _ _) as [[rs|e] h2]; simpl in *; [done|].
  intros [= ->]. by destruct Hne.
Qed.

Lemma _resolve_depth_irrelevant (d d' : nat) sel ssbn h :
  unexpanded ssbn (selector_stack h) < d → (d ≤ d')%nat →
  _resolve d' sel ssbn h = _resolve d sel ssbn h.
Proof.
  intros Hd. induction 1 as [|d' Hle IH]; [done|].
  rewrite _resolve_depth_S; [done|].
  apply _resolve_depth_enough. lia.
Qed.

Lemma _resolve_depth_le (d d' : nat) sel ssbn h :
  (_resolve d sel ssbn h).1 ≠ Raise RuntimeError → (d ≤ d')%nat →
  _resolve d' sel ssbn h = _resolve d sel ssbn h.
Proof.
  intros Hne. induction 1 as [|d' Hle IH]; [done|].
  rewrite _resolve_depth_S; [done|]. by rewrite IH.
Qed.

Lemma ServiceSet_resolve_unfold sel service_sets h :
  ServiceSet_resolve sel service_sets h =
    _resolve (S (size (dict_by ServiceSet.name service_sets))) sel
      (dict_by ServiceSet.name service_sets) (with_stack [] h).
Proof. done. Qed.

(** [ServiceSet.resolve] never runs out of depth. *)
Lemma ServiceSet_resolve_total sel service_sets h :
  (ServiceSet_resolve sel service_sets h).1 ≠ Raise RuntimeError.
Proof.
  rewrite ServiceSet_resolve_unfold. apply _resolve_depth_enough.
  simpl. rewrite unexpanded_nil. lia.
Qed.

(** ** A selector that is being expanded *)


Lemma _resolve_on_stack_no_Return d sel ssbn h r h' :
  sel ∈ selector_stack h → _resolve d sel ssbn h ≠ (Return r, h').
Proof.
  intros Hin. destruct d as [|d]; [done|].
  rewrite _resolve_S. case_bool_decide; [done|].
  by rewrite bool_decide_eq_true_2.
Qed.

(** ** Expanding a group *)

Lemma _resolve_group d sel ssbn h g :
  expandable (project h) ssbn sel g → sel ∉ selector_stack h →
  _resolve (S d) sel ssbn h =
    match mapM (λ s, _resolve d s ssbn) (ServiceSet.selectors g)
            (with_stack (selector_stack h ++ [sel]) h) with
    | (Return rs, h2) =>
        (match reduce (∪) rs with
         | Some r => Return r
         | None => Raise TypeError
         end, h)
    | (Raise e, h2) => (Raise e, h2)
    end.
Proof.
  intros (Hne & Hall & Hsvc & Hg) Hnot. rewrite _resolve_S.
  rewrite !bool_decide_eq_false_2 by done. rewrite Hsvc, Hg.
  destruct (mapM _ _ _) as [[rs|e] h2] eqn:Hmap; [|done].
  apply mapM_Return_inv in Hmap as [-> _];
    [|intros; by eapply _resolve_Return_heap].
  simpl. by rewrite popitem_last_snoc, with_stack_twice, with_stack_id.
Qed.

(** A group with a member that is being expanded (or is the group itself)
    does not resolve. *)
Lemma _resolve_group_member_on_stack d sel ssbn h g m r h' :
  expandable (project h) ssbn sel g → sel ∉ selector_stack h →
  m ∈ ServiceSet.selectors g → (m = sel ∨ m ∈ selector_stack h) →
  _resolve d sel ssbn h ≠ (Return r, h').
Proof.
  intros Hexp Hnot Hm Hon. destruct d as [|d]; [done|].
  rewrite (_resolve_group _ _ _ _ g) by done.
  destruct (mapM _ _ _) as [[rs|e] h2] eqn:Hmap; [|done].
  apply mapM_Return_inv in Hmap as [-> Hall];
    [|intros; by eapply _resolve_Return_heap].
  apply list_elem_of_lookup in Hm as [i Hi].
  destruct (Forall2_lookup_l _ _ _ _ _ Hall Hi) as (y & _ & Hy).
  exfalso. revert Hy. apply _resolve_on_stack_no_Return. simpl.
  set_solver.
Qed.

(** Resolution of a member of group [g] does not depend on [g] being on
    the expansion stack: where it returns without [g], it returns the same
    with [g] at the bottom of the stack. *)
Lemma _resolve_below_group d sel ssbn h g G m r :
  expandable (project h) ssbn g G → m ∈ ServiceSet.selectors G →
  (sel = m ∨ m ∈ selector_stack h) →
  _resolve d sel ssbn h = (Return r, h) →
  _resolve d sel ssbn (with_stack (g :: selector_stack h) h)
    = (Return r, with_stack (g :: selector_stack h) h).
Proof.
  intros Hexp Hm. revert sel h r Hexp.
  induction d as [|d IH]; intros sel h r Hexp Hon; [done|].
  destruct (decide (sel ∈ selector_stack h)) as [Hin|Hnot].
  { intros Hr. exfalso. revert Hr. by apply _resolve_on_stack_no_Return. }
  destruct (decide (sel = g)) as [->|Hneg].
  { intros Hr. exfalso. revert Hr.
    eapply _resolve_group_member_on_stack; [done..|]. naive_solver. }
  rewrite !_resolve_S. simpl.
  case_bool_decide; [done|].
  rewrite (bool_decide_eq_false_2 (sel ∈ selector_stack h)) by done.
  rewrite (bool_decide_eq_false_2 (sel ∈ g :: selector_stack h))
    by set_solver.
  case_bool_decide; [by intros [= <-]|].
  destruct (Project.services_by_name (project h) !! sel);
    [by intros [= <-]|].
  destruct (ssbn !! sel) as [G'|]; [|done].
  destruct (mapM _ _ (with_stack (selector_stack h ++ [sel]) h))
    as [[rs|e] h2] eqn:Hmap; [|done].
  apply mapM_Return_inv in Hmap as [-> Hall];
    [|intros; by eapply _resolve_Return_heap].
  simpl. rewrite popitem_last_snoc, with_stack_twice, with_stack_id.
  intros Hr.
  rewrite (mapM_Return_intro _ _ _ rs).
  - cbn [selector_stack with_stack].
    change (g :: selector_stack h ++ [sel])
      with ((g :: selector_stack h) ++ [sel]).
    rewrite popitem_last_snoc. injection Hr as ->. done.
  - eapply Forall2_impl; [exact Hall|]. intros x y Hx.
    apply (IH x (with_stack (selector_stack h ++ [sel]) h) y);
      [done| |done].
    right. simpl. set_solver.
Qed.

(** ** Chains of first members *)

Lemma first_member_path_dom p ssbn path last x :
  first_member_path p ssbn path last → x ∈ path → x ∈ dom ssbn.
Proof.
  induction path as [|y rest IH]; simpl; [by intros _ ?%elem_of_nil|].
  intros (_ & _ & _ & Hfm & Hrest) [->|Hin]%elem_of_cons; [|by apply IH].
  unfold first_member in Hfm. apply elem_of_dom.
  by destruct (ssbn !! y).
Qed.

Lemma first_member_path_length p (ssbn : gmap string ServiceSet.t) path last :
  first_member_path p ssbn path last → NoDup path →
  (length path ≤ size ssbn)%nat.
Proof.
  intros Hpath Hnd.
  rewrite <-size_dom, <-(size_list_to_set (C:=gset string) path) by done.
  apply subseteq_size. intros x Hx%elem_of_list_to_set.
  by eapply first_member_path_dom.
Qed.

(** What the last selector of a chain of first members raises is raised by
    the whole chain, with the chain on the expansion stack. *)
Lemma _resolve_first_member_path d path last ssbn h e h' :
  first_member_path (project h) ssbn path last → NoDup path →
  (∀ x, x ∈ path → x ∉ selector_stack h) →
  _resolve d last ssbn (with_stack (selector_stack h ++ path) h)
    = (Raise e, h') →
  _resolve (length path + d) (default last (head path)) ssbn h
    = (Raise e, h').
Proof.
  revert h. induction path as [|x rest IH]; intros h Hpath Hnd Hfresh Hlast.
  - by rewrite app_nil_r, with_stack_id in Hlast.
  - destruct Hpath as (Hne & Hall & Hsvc & Hfm & Hrest).
    apply NoDup_cons in Hnd as [Hx Hnd].
    unfold first_member in Hfm.
    destruct (ssbn !! x) as [g|] eqn:Hg; [|done]. simpl in Hfm.
    destruct (ServiceSet.selectors g) as [|y ys] eqn:Hsel; [done|].
    injection Hfm as ->. simpl.
    rewrite (_resolve_group _ _ _ _ g); [|done|apply Hfresh; left].
    rewrite Hsel, mapM_cons.
    rewrite (IH (with_stack (selector_stack h ++ [x]) h)); [done..| |].
    + intros z Hz. simpl. rewrite elem_of_app, list_elem_of_singleton.
      intros [?| ->]; [|done]. eapply Hfresh; [by right|done].
    + simpl. by rewrite <-app_assoc.
Qed.

(** ** The facade *)

Lemma Ads_resolve_unfold selector h :
  Ads_resolve selector h =
    ServiceSet_resolve
      (if bool_decide (selector = "default")
       then py_or (Profile.default_selector (profile h))
                  (Project.default_selector (project h))
       else selector)
      (Project.service_sets (project h) ++ Profile.service_sets (profile h))
      h.
Proof.
  unfold Ads_resolve, Ads_get_default_selector. unfold_M.
  by case_bool_decide.
Qed.

(** ** The name of a service *)

(** [Project.__init__] files every service under its own name. *)
Lemma Project_init_services_by_name name home services sets dflt sel svc :
  Project.services_by_name (Project.init name home services sets dflt) !! sel
    = Some svc →
  Service.name svc = sel ∧ svc ∈ default [] services.
Proof. apply dict_by_lookup_key. Qed.

(** The name of a service resolves to that service alone, whatever the
    groups are. *)
Lemma ServiceSet_resolve_service sel service_sets h svc :
  sel ≠ "" → sel ≠ "all" →
  Project.services_by_name (project h) !! sel = Some svc →
  (ServiceSet_resolve sel service_sets h).1 = Return {[ Service.name svc ]}.
Proof.
  intros Hne Hall Hsvc. rewrite ServiceSet_resolve_unfold, _resolve_S.
  rewrite (bool_decide_eq_false_2 (sel = "")) by done.
  rewrite (bool_decide_eq_false_2 (sel ∈ _)) by apply not_elem_of_nil.
  rewrite (bool_decide_eq_false_2 (sel = "all")) by done.
  simpl. by rewrite Hsvc.
Qed.

(** ** C1: the selector "all" *)

(** C1. Resolving the selector "all" returns exactly the set of service
    names of the project (the keys of [services_by_name], which
    [Project.__init__] fills with the names of the services given), whatever
    groups are defined, through [ServiceSet.resolve] and through
    [Ads.resolve]. *)
Theorem C1_resolve_all (service_sets : list ServiceSet.t) (h : Heap) :
  (ServiceSet_resolve "all" service_sets h).1
    = Return (dom (Project.services_by_name (project h)))
  ∧ (Ads_resolve "all" h).1
    = Return (dom (Project.services_by_name (project h)))
  ∧ ∀ name home services sets dflt,
      dom (Project.services_by_name
             (Project.init name home services sets dflt))
      = list_to_set (Service.name <$> default [] services).
Proof.
  split_and!.
  - by rewrite ServiceSet_resolve_unfold, _resolve_S.
  - by rewrite Ads_resolve_unfold, ServiceSet_resolve_unfold, _resolve_S.
  - intros. simpl. apply dict_by_dom.
Qed.

(** ** C2: a group is the union of its members *)

(** C2, as stated, fails: the project has the services api, db and web and
    the group web = [db].  The only member, db, resolves to {db}, but the
    name web is taken as the service and resolves to {web}. *)
Lemma C2_counterexample :
  ¬ (∀ (service_sets : list ServiceSet.t) (h : Heap) (g : string)
       (G : ServiceSet.t) (results : list (gset string)),
       dict_by ServiceSet.name service_sets !! g = Some G →
       Forall2 (λ m r, (ServiceSet_resolve m service_sets h).1 = Return r)
         (ServiceSet.selectors G) results →
       (ServiceSet_resolve g service_sets h).1 = Return (⋃ results)).
Proof.
  intros Hclaim.
  specialize (Hclaim shadowed_groups (example_heap shadowed_groups)
                "web" (ServiceSet.mk "web" ["db"]) [{["db"]}]).
  assert ((ServiceSet_resolve "web" shadowed_groups
             (example_heap shadowed_groups)).1 = Return {["web"]}) as Hweb
    by (by vm_compute).
  rewrite Hweb in Hclaim.
  assert (Return ({["web"]} : gset string) = Return (⋃ [{["db"]}])) as Heq.
  { apply Hclaim; [by vm_compute|].
    constructor; [by vm_compute|constructor]. }
  apply (f_equal (λ r, match r with
                       | Return X => elements X
                       | Raise _ => []
                       end)) in Heq.
  vm_compute in Heq. discriminate.
Qed.

(** C2 (amended). For every group of the merged namespace whose name reaches
    the group branch (it is not empty, not "all" and not the name of a
    service), whose selector list is not empty and whose member selectors
    all resolve without error, resolving the name of the group returns the
    union of the results of its members. *)
Theorem C2_group_is_union_of_members (service_sets : list ServiceSet.t)
    (h : Heap) (g : string) (G : ServiceSet.t) (results : list (gset string)) :
  expandable (project h) (dict_by ServiceSet.name service_sets) g G →
  ServiceSet.selectors G ≠ [] →
  Forall2 (λ m r, (ServiceSet_resolve m service_sets h).1 = Return r)
    (ServiceSet.selectors G) results →
  (ServiceSet_resolve g service_sets h).1 = Return (⋃ results).
Proof.
  intros Hexp Hne Hall. rewrite ServiceSet_resolve_unfold.
  set (ssbn := dict_by ServiceSet.name service_sets) in *.
  rewrite (_resolve_group _ _ _ _ G) by (done || apply not_elem_of_nil).
  assert (size ssbn ≠ 0) as Hsize.
  { destruct Hexp as (_ & _ & _ & Hg). intros Hz%map_size_empty_inv.
    by rewrite Hz in Hg. }
  rewrite (mapM_Return_intro _ _ _ results).
  - rewrite reduce_union; [done|].
    intros ->. apply Forall2_nil_inv_r in Hall. done.
  - eapply Forall2_impl_elem_of; [exact Hall|]. intros m r H0 Hm.
    simpl in *.
    rewrite ServiceSet_resolve_unfold in Hm.
    destruct (_resolve (S (size ssbn)) m ssbn (with_stack [] h))
      as [r' h'] eqn:Hr.
    fold ssbn in Hm. rewrite Hr in Hm. simpl in Hm. subst r'.
    assert (h' = with_stack [] h) as -> by (by eapply _resolve_Return_heap).
    pose proof (_resolve_below_group _ _ _ (with_stack [] h) g G m r
                  Hexp H0 (or_introl eq_refl) Hr) as Hbelow.
    simpl in Hbelow.
    rewrite <-Hbelow. symmetry.
    apply _resolve_depth_irrelevant; [|lia]. simpl.
    pose proof (unexpanded_push ssbn [] g) as Hlt.
    rewrite unexpanded_nil in Hlt. simpl in Hlt.
    destruct Hexp as (_ & _ & _ & Hg).
    assert (unexpanded ssbn [g] < size ssbn)
      by (apply Hlt; [by eexists|apply not_elem_of_nil]).
    lia.
Qed.

Lemma C2_witness :
  expandable (project (example_heap scenario_groups))
    (dict_by ServiceSet.name scenario_groups) "everything"
    (ServiceSet.mk "everything" ["web_stack"; "db"])
  ∧ (ServiceSet_resolve "everything" scenario_groups (example_heap scenario_groups)).1
    = Return (⋃ [{["api"; "web"]}; {["db"]}]).
Proof.
  assert (expandable (project (example_heap scenario_groups))
            (dict_by ServiceSet.name scenario_groups) "everything"
            (ServiceSet.mk "everything" ["web_stack"; "db"])) as Hexp
    by (by vm_compute).
  split; [exact Hexp|].
  apply (C2_group_is_union_of_members scenario_groups (example_heap scenario_groups)
           "everything" (ServiceSet.mk "everything" ["web_stack"; "db"])).
  - exact Hexp.
  - discriminate.
  - constructor; [|constructor; [|constructor]]; simpl.
    + vm_compute. reflexivity.
    + vm_compute. reflexivity.
Defined.

(** ** C3: a group without members *)

(** A group with an empty selector list that reaches the group branch
    raises [TypeError]: [reduce] gets an empty list and no initial value. *)
Lemma _resolve_empty_group d sel ssbn h g :
  expandable (project h) ssbn sel g → sel ∉ selector_stack h →
  ServiceSet.selectors g = [] →
  _resolve (S d) sel ssbn h = (Raise TypeError, h).
Proof.
  intros Hexp Hnot Hsel.
  by rewrite (_resolve_group _ _ _ _ g), Hsel by done.
Qed.

(** C3. The claim is that a group with an empty selector list resolves to
    the empty set.  The code does not: with the group nothing = [],
    resolving "nothing" raises [TypeError] instead of returning [∅]. *)
Theorem C3_empty_group_raises_TypeError :
  (ServiceSet_resolve "nothing" empty_group (example_heap empty_group)).1
    = Raise TypeError
  ∧ (Ads_resolve "nothing" (example_heap empty_group)).1 = Raise TypeError.
Proof.
  assert (expandable (project (example_heap empty_group))
            (dict_by ServiceSet.name empty_group) "nothing"
            (ServiceSet.mk "nothing" [])) as Hexp by (by vm_compute).
  split.
  - rewrite ServiceSet_resolve_unfold.
    rewrite (_resolve_empty_group _ _ _ _ (ServiceSet.mk "nothing" []));
      [done|exact Hexp|apply not_elem_of_nil|done].
  - rewrite Ads_resolve_unfold, ServiceSet_resolve_unfold.
    rewrite (_resolve_empty_group _ _ _ _ (ServiceSet.mk "nothing" []));
      [done|exact Hexp|apply not_elem_of_nil|done].
Qed.

(** ** C4: cycles *)




(** ** C5: unknown selectors *)

Lemma dict_by_lookup_None {A} (key : A → string) (l : list A) (k : string) :
  k ∉ key <$> l → dict_by key l !! k = None.
Proof.
  intros Hk. apply not_elem_of_dom. rewrite dict_by_dom. set_solver.
Qed.

Lemma _resolve_unknown d sel ssbn h :
  sel ≠ "" → sel ≠ "all" → sel ∉ selector_stack h →
  Project.services_by_name (project h) !! sel = None → ssbn !! sel = None →
  _resolve (S d) sel ssbn h =
    (Raise (BadSelectorException
              (unresolved_msg sel (selector_stack h ++ [sel]))), h).
Proof.
  intros Hne Hall Hnot Hsvc Hg. rewrite _resolve_S.
  by rewrite !bool_decide_eq_false_2, Hsvc, Hg by done.
Qed.

(** C5, as stated, fails: the empty string is not "all", not a service and
    not a group, but it is stopped by [assert selector] and raises
    [AssertionError], not a [BadSelectorException]. *)
Lemma C5_counterexample :
  ¬ (∀ (sel : string) (service_sets : list ServiceSet.t) (h : Heap),
       sel ≠ "all" →
       sel ∉ dom (Project.services_by_name (project h)) →
       sel ∉ ServiceSet.name <$> service_sets →
       ∃ msg, (ServiceSet_resolve sel service_sets h).1
              = Raise (BadSelectorException msg)).
Proof.
  intros Hclaim.
  destruct (Hclaim "" [] (example_heap [])) as [msg Hmsg].
  - discriminate.
  - apply not_elem_of_dom. by vm_compute.
  - apply not_elem_of_nil.
  - vm_compute in Hmsg. discriminate.
Qed.

(** C5 (amended). Every non-empty selector that is not "all", not the name
    of a service and not the name of a group fails with an Unresolved error
    that names it and reports the expansion stack followed by the selector
    itself: the selector alone when it is the top-level input, and the
    chain [path ++ [sel]] when it is reached through the first members of
    the groups of [path]. *)
Theorem C5_unknown_selector_unresolved (service_sets : list ServiceSet.t)
    (h : Heap) (sel : string) :
  sel ≠ "" → sel ≠ "all" →
  sel ∉ dom (Project.services_by_name (project h)) →
  sel ∉ ServiceSet.name <$> service_sets →
  (ServiceSet_resolve sel service_sets h).1
    = Raise (BadSelectorException (unresolved_msg sel [sel]))
  ∧ (∀ d stack, sel ∉ stack →
       _resolve (S d) sel (dict_by ServiceSet.name service_sets)
         (with_stack stack h)
       = (Raise (BadSelectorException (unresolved_msg sel (stack ++ [sel]))),
          with_stack stack h))
  ∧ (∀ path,
       first_member_path (project h)
         (dict_by ServiceSet.name service_sets) path sel →
       NoDup path →
       (ServiceSet_resolve (default sel (head path)) service_sets h).1
       = Raise (BadSelectorException (unresolved_msg sel (path ++ [sel])))).
Proof.
  intros Hne Hall Hsvc%not_elem_of_dom Hg%dict_by_lookup_None.
  set (ssbn := dict_by ServiceSet.name service_sets) in *.
  assert (∀ d stack, sel ∉ stack →
            _resolve (S d) sel ssbn (with_stack stack h)
            = (Raise (BadSelectorException
                        (unresolved_msg sel (stack ++ [sel]))),
               with_stack stack h)) as Hlocal.
  { intros d stack Hnot. by apply _resolve_unknown. }
  split_and!.
  - rewrite ServiceSet_resolve_unfold. fold ssbn.
    by rewrite (Hlocal _ []) by apply not_elem_of_nil.
  - exact Hlocal.
  - intros path Hpath Hnd.
    assert (sel ∉ path) as Hnot.
    { intros Hin. eapply first_member_path_dom in Hin; [|done].
      by apply not_elem_of_dom in Hin. }
    pose proof (_resolve_first_member_path 1 path sel ssbn
                  (with_stack [] h) _ _ Hpath Hnd
                  (λ x _, not_elem_of_nil x) (Hlocal 0 path Hnot)) as Hchain.
    pose proof (first_member_path_length _ _ _ _ Hpath Hnd) as Hlen.
    rewrite ServiceSet_resolve_unfold. fold ssbn.
    rewrite (_resolve_depth_le (length path + 1)); rewrite ?Hchain;
      [done|done|lia].
Qed.

Lemma C5_witness :
  (ServiceSet_resolve "nonexistent" dangling_groups (example_heap dangling_groups)).1
    = Raise (BadSelectorException
               "No service or selector named 'nonexistent'. Reference chain: nonexistent")
  ∧ (ServiceSet_resolve "outer" dangling_groups (example_heap dangling_groups)).1
    = Raise (BadSelectorException
               "No service or selector named 'nonexistent'. Reference chain: outer -> inner -> nonexistent").
Proof.
  assert ("nonexistent" ∉
            dom (Project.services_by_name (project (example_heap dangling_groups))))
    as Hsvc by (apply not_elem_of_dom; by vm_compute).
  assert ("nonexistent" ∉ ServiceSet.name <$> dangling_groups) as Hg
    by (simpl; set_solver).
  destruct (C5_unknown_selector_unresolved dangling_groups (example_heap dangling_groups)
              "nonexistent" ltac:(discriminate) ltac:(discriminate) Hsvc Hg)
    as (Htop & _ & Hpath).
  split; [exact Htop|].
  apply (Hpath ["outer"; "inner"]).
  - vm_compute. repeat split; discriminate.
  - repeat constructor; set_solver.
Defined.

(** ** C6: the default selector and the merged namespace *)

(** C6. Resolving "default" through the facade resolves the default
    selector of the profile when the profile defines one (a value that is
    not [None] and not empty, as Python's [or] reads it) and otherwise that
    of the project; whatever the selector, the groups handed to the
    resolver are the project's followed by the profile's, so each group of
    either is among them and each of their names is a key of the namespace
    dict. *)
Theorem C6_default_selector_and_namespace (h : Heap) :
  let merged :=
    Project.service_sets (project h) ++ Profile.service_sets (profile h) in
  (∀ d, Profile.default_selector (profile h) = Some d → d ≠ "" →
     Ads_resolve "default" h = ServiceSet_resolve d merged h)
  ∧ (Profile.default_selector (profile h) = None
     ∨ Profile.default_selector (profile h) = Some "" →
     Ads_resolve "default" h
     = ServiceSet_resolve (Project.default_selector (project h)) merged h)
  ∧ (∀ selector, selector ≠ "default" →
     Ads_resolve selector h = ServiceSet_resolve selector merged h)
  ∧ (∀ g, g ∈ Project.service_sets (project h)
          ∨ g ∈ Profile.service_sets (profile h) → g ∈ merged)
  ∧ dom (dict_by ServiceSet.name merged)
    = list_to_set (ServiceSet.name <$> Project.service_sets (project h))
      ∪ list_to_set (ServiceSet.name <$> Profile.service_sets (profile h)).
Proof.
  split_and!.
  - intros d Hd Hne. rewrite Ads_resolve_unfold, Hd. simpl.
    by rewrite bool_decide_eq_false_2.
  - intros [Hd|Hd]; by rewrite Ads_resolve_unfold, Hd.
  - intros selector Hne. rewrite Ads_resolve_unfold.
    by rewrite bool_decide_eq_false_2.
  - intros g Hg. by apply elem_of_app.
  - by rewrite dict_by_dom, fmap_app, list_to_set_app_L.
Qed.

Lemma C6_witness :
  Ads_resolve "default" (mkHeap backend_project mine_profile [])
    = ServiceSet_resolve "mine"
        [ServiceSet.mk "backend" ["api"; "db"]; ServiceSet.mk "mine" ["db"]]
        (mkHeap backend_project mine_profile [])
  ∧ Ads_resolve "default" (mkHeap backend_project (Profile.init None None) [])
    = ServiceSet_resolve "backend" [ServiceSet.mk "backend" ["api"; "db"]]
        (mkHeap backend_project (Profile.init None None) [])
  ∧ Ads_resolve "backend" (mkHeap backend_project mine_profile [])
    = ServiceSet_resolve "backend"
        [ServiceSet.mk "backend" ["api"; "db"]; ServiceSet.mk "mine" ["db"]]
        (mkHeap backend_project mine_profile []).
Proof.
  split_and!.
  - apply (proj1 (C6_default_selector_and_namespace
                    (mkHeap backend_project mine_profile [])) "mine").
    + reflexivity.
    + discriminate.
  - apply (proj1 (proj2 (C6_default_selector_and_namespace
                    (mkHeap backend_project (Profile.init None None) [])))).
    left. reflexivity.
  - apply (proj1 (proj2 (proj2 (C6_default_selector_and_namespace
                    (mkHeap backend_project mine_profile [])))) "backend").
    discriminate.
Defined.

(** ** C7: resolution only reads the project and the profile *)

Lemma ServiceSet_resolve_same_objects sel service_sets h :
  same_objects h (ServiceSet_resolve sel service_sets h).2.
Proof.
  rewrite ServiceSet_resolve_unfold.
  eapply same_objects_trans; [|apply _resolve_same_objects].
  apply same_objects_with_stack.
Qed.

(** [ServiceSet.resolve] starts from a fresh stack: the stack it finds in
    the heap does not count. *)
Lemma ServiceSet_resolve_fresh_stack sel service_sets h h' :
  same_objects h h' →
  ServiceSet_resolve sel service_sets h' = ServiceSet_resolve sel service_sets h.
Proof.
  intros [Hp Hq]. rewrite !ServiceSet_resolve_unfold.
  f_equal. unfold with_stack. by rewrite Hp, Hq.
Qed.

(** C7. Resolution does not change the project or the profile (the heap
    after a call holds the same two objects, whether the call returned or
    raised, for [_resolve], [ServiceSet.resolve] and [Ads.resolve]); a call
    of [_resolve] that returns gives back the whole heap, the expansion
    stack included; and a second call with the same arguments, made on the
    heap the first call left, gives the same result. *)
Theorem C7_resolution_is_pure (sel : string) (service_sets : list ServiceSet.t)
    (h : Heap) :
  (∀ d, same_objects h
          (_resolve d sel (dict_by ServiceSet.name service_sets) h).2)
  ∧ (∀ d r h', _resolve d sel (dict_by ServiceSet.name service_sets) h
               = (Return r, h') → h' = h)
  ∧ same_objects h (ServiceSet_resolve sel service_sets h).2
  ∧ (ServiceSet_resolve sel service_sets
       (ServiceSet_resolve sel service_sets h).2).1
    = (ServiceSet_resolve sel service_sets h).1
  ∧ same_objects h (Ads_resolve sel h).2
  ∧ (Ads_resolve sel (Ads_resolve sel h).2).1 = (Ads_resolve sel h).1.
Proof.
  split_and!.
  - intros d. apply _resolve_same_objects.
  - intros d r h'. apply _resolve_Return_heap.
  - apply ServiceSet_resolve_same_objects.
  - f_equal. apply ServiceSet_resolve_fresh_stack,
      ServiceSet_resolve_same_objects.
  - rewrite Ads_resolve_unfold. apply ServiceSet_resolve_same_objects.
  - assert (same_objects h (Ads_resolve sel h).2) as [Hp Hq]
      by (rewrite Ads_resolve_unfold; apply ServiceSet_resolve_same_objects).
    rewrite (Ads_resolve_unfold sel (Ads_resolve sel h).2), Hp, Hq.
    rewrite (ServiceSet_resolve_fresh_stack _ _ h) by done.
    by rewrite <-Ads_resolve_unfold.
Qed.

Lemma C7_witness :
  (_resolve 3 "everything" (dict_by ServiceSet.name scenario_groups)
     (example_heap scenario_groups)).2
  = example_heap scenario_groups.
Proof.
  apply (proj1 (proj2 (C7_resolution_is_pure "everything" scenario_groups
                         (example_heap scenario_groups)))
           3 {[ "api"; "web"; "db" ]}).
  vm_compute. reflexivity.
Defined.

(** ** C10: a profile group hides the project group of the same name *)




(** ** C9: the cache *)

(** In a cache whose file holds its content, [get] answers "adsroot" with
    the path the file has for it: whichever entry a merge keeps, the two
    cannot differ. *)
Lemma Cache_get_persisted_adsroot (discover : string → string) (c : Cache.t)
    (root : string) :
  Cache.file c = Some (Cache.content c) →
  Cache.load_from_cache (Cache.file c) !! "adsroot" = Some root →
  Cache.get discover (inr "adsroot") c = (root, c).
Proof. intros ->. simpl. intros Hroot. unfold Cache.get. by rewrite Hroot. Qed.




(** ** C8: listing with a default selector that does not resolve *)

Lemma Ads_default_section_unresolved h msg :
  let sel := py_or (Profile.default_selector (profile h))
                   (Project.default_selector (project h)) in
  (Ads_resolve sel h).1 = Raise (BadSelectorException msg) →
  sel ≠ "(Unresolved)" →
  Ads_default_section h
  = (Return {[ sel := "(Unresolved)" ]}, (Ads_resolve sel h).2).
Proof.
  intros sel Hres Hne.
  unfold Ads_default_section, Ads_get_default_selector,
    except_BadSelectorException.
  unfold_M. fold sel.
  destruct (Ads_resolve sel h) as [[r|e] h'] eqn:Hr; simpl in Hres; [done|].
  injection Hres as ->. simpl. by rewrite bool_decide_eq_false_2.
Qed.

Lemma print_sections_Return (width : nat) (l : list Treelisting.section) :
  Forall (λ s, s.1.2 ≠ ∅ ∨ is_Some s.2) l →
  ∃ lines, Treelisting.print_sections width l = Return lines.
Proof.
  induction 1 as [|[[heading d] msg] l Hs _ [lines IH]]; [by eexists|].
  simpl in *. rewrite IH.
  case_bool_decide as Hd.
  - destruct Hs as [?|[m ->]]; [done|]. by eexists.
  - by eexists.
Qed.

(** What the listing does by design: when the default selector fails with
    a [BadSelectorException] and is not itself the string "(Unresolved)",
    [list] returns, and the default section shows "(Unresolved)". *)
Lemma Ads_list_unresolved_default h msg :
  let sel := py_or (Profile.default_selector (profile h))
                   (Project.default_selector (project h)) in
  (Ads_resolve sel h).1 = Raise (BadSelectorException msg) →
  sel ≠ "(Unresolved)" →
  (Ads_default_section h).1 = Return {[ sel := "(Unresolved)" ]}
  ∧ ∃ lines, (Ads_list h).1 = Return lines.
Proof.
  intros sel Hres Hne.
  pose proof (Ads_default_section_unresolved h msg Hres Hne) as Hsec.
  fold sel in Hsec. split; [by rewrite Hsec|].
  unfold Ads_list. unfold_M. rewrite Hsec.
  unfold Treelisting.pretty_print.
  case_bool_decide; [by eexists|].
  apply print_sections_Return.
  unfold Treelisting.with_section. simpl.
  repeat apply Forall_cons_2; try apply Forall_nil_2; simpl;
    [right; by eexists..|left].
  apply insert_non_empty.
Qed.

(** C8. The claim is that [list] completes and shows "(Unresolved)" whenever
    the default selector does not resolve.  The code does not when the
    default selector is the string "(Unresolved)" itself: resolution fails
    with a [BadSelectorException], the description becomes "(Unresolved)",
    the test [default_description == default_selector] takes it for a
    service name and the lookup raises [KeyError].  Nor does it when the
    default selector is a group without members: the [TypeError] of
    [reduce] is not a [BadSelectorException] and passes through. *)
Theorem C8_list_raises :
  (Ads_resolve "(Unresolved)" unresolved_default_heap).1
    = Raise (BadSelectorException
               "No service or selector named '(Unresolved)'. Reference chain: (Unresolved)")
  ∧ (Ads_list unresolved_default_heap).1 = Raise (KeyError "(Unresolved)")
  ∧ (Ads_list empty_default_heap).1 = Raise TypeError.
Proof. split_and!; by vm_compute. Qed.

(** * Further properties *)

(** ** What a call of the resolver that returns, or raises, went through *)

Lemma _resolve_Return_inv d sel ssbn h r h' :
  _resolve (S d) sel ssbn h = (Return r, h') →
  sel ≠ "" ∧ (sel ∉ selector_stack h) ∧ h' = h
  ∧ ((sel = "all" ∧ r = dom (Project.services_by_name (project h)))
     ∨ (sel ≠ "all"
        ∧ ∃ svc, Project.services_by_name (project h) !! sel = Some svc
                 ∧ r = {[ Service.name svc ]})
     ∨ (∃ g rs,
          expandable (project h) ssbn sel g ∧ rs ≠ [] ∧ r = ⋃ rs
          ∧ Forall2
              (λ m y, _resolve d m ssbn
                        (with_stack (selector_stack h ++ [sel]) h)
                      = (Return y, with_stack (selector_stack h ++ [sel]) h))
              (ServiceSet.selectors g) rs)).
Proof.
  intros Hr. assert (h' = h) as -> by (eapply _resolve_Return_heap; done).
  revert Hr. rewrite _resolve_S.
  case_bool_decide as Hne; [done|].
  case_bool_decide as Hin; [done|].
  case_bool_decide as Hall.
  { intros [= <-]. split_and!; try done. by left. }
  destruct (Project.services_by_name (project h) !! sel) as [svc|] eqn:Hsvc.
  { intros [= <-]. split_and!; try done. right; left. eauto. }
  destruct (ssbn !! sel) as [g|] eqn:Hg; [|done].
  destruct (mapM _ _ _) as [[rs|e] h2] eqn:Hmap; [|done].
  apply mapM_Return_inv in Hmap as [-> Hrs];
    [|intros; by eapply _resolve_Return_heap].
  cbn [selector_stack with_stack]. rewrite popitem_last_snoc.
  destruct rs as [|y rs]; [done|].
  rewrite reduce_union by done. intros [= <-].
  split_and!; try done. right; right. exists g, (y :: rs).
  split_and!; done.
Qed.

Lemma _resolve_Raise_inv d sel ssbn h e h' :
  _resolve (S d) sel ssbn h = (Raise e, h') →
  (sel = "" ∧ e = AssertionError ∧ h' = h)
  ∨ (sel ≠ "" ∧ (sel ∈ selector_stack h) ∧ h' = h
     ∧ e = BadSelectorException (circular_msg (selector_stack h ++ [sel])))
  ∨ (sel ≠ "" ∧ (sel ∉ selector_stack h) ∧ sel ≠ "all" ∧ h' = h
     ∧ Project.services_by_name (project h) !! sel = None
     ∧ ssbn !! sel = None
     ∧ e = BadSelectorException
             (unresolved_msg sel (selector_stack h ++ [sel])))
  ∨ (∃ g, expandable (project h) ssbn sel g ∧ (sel ∉ selector_stack h)
          ∧ ((ServiceSet.selectors g = [] ∧ e = TypeError ∧ h' = h)
             ∨ ∃ m, m ∈ ServiceSet.selectors g
                    ∧ _resolve d m ssbn
                        (with_stack (selector_stack h ++ [sel]) h)
                      = (Raise e, h'))).
Proof.
  rewrite _resolve_S.
  case_bool_decide as Hne; [intros [= <- <-]; left; done|].
  case_bool_decide as Hin; [intros [= <- <-]; right; left; done|].
  case_bool_decide as Hall; [done|].
  destruct (Project.services_by_name (project h) !! sel) as [svc|] eqn:Hsvc;
    [done|].
  destruct (ssbn !! sel) as [g|] eqn:Hg;
    [|intros [= <- <-]; right; right; left; done].
  intros Hr. right; right; right. exists g. split_and!; try done.
  destruct (mapM _ _ _) as [[rs|e'] h2] eqn:Hmap.
  - apply mapM_Return_inv in Hmap as [-> Hrs];
      [|intros; by eapply _resolve_Return_heap].
    revert Hr. cbn [selector_stack with_stack]. rewrite popitem_last_snoc.
    destruct rs as [|y rs].
    + apply Forall2_nil_inv_r in Hrs. intros [= <- <-]. left.
      by rewrite with_stack_twice, with_stack_id.
    + by rewrite reduce_union.
  - injection Hr as -> ->.
    apply mapM_Raise_inv in Hmap as (m & Hm & Hmr);
      [|intros; by eapply _resolve_Return_heap].
    right. eauto.
Qed.

(** ** Resolution returns names of services *)

Lemma Project_init_filed_by_name name home services sets dflt :
  filed_by_name (Project.init name home services sets dflt).
Proof. intros k svc Hk. by apply dict_by_lookup_key in Hk as [? _]. Qed.

Lemma _resolve_names d sel ssbn h r h' :
  filed_by_name (project h) →
  _resolve d sel ssbn h = (Return r, h') →
  r ⊆ dom (Project.services_by_name (project h)).
Proof.
  intros Hfiled. revert sel h r h' Hfiled.
  induction d as [|d IH]; intros sel h r h' Hfiled Hr; [done|].
  apply _resolve_Return_inv in Hr
    as (_ & _ & _ & [[_ ->]|[(_ & svc & Hsvc & ->)|(g & rs & _ & _ & -> & Hrs)]]).
  - done.
  - apply singleton_subseteq_l, elem_of_dom.
    rewrite (Hfiled _ _ Hsvc). by eexists.
  - intros n (X & HX & Hn)%elem_of_union_list.
    apply list_elem_of_lookup in HX as [i Hi].
    destruct (Forall2_lookup_r _ _ _ _ _ Hrs Hi) as (m & _ & Hm).
    by apply (IH _ (with_stack (selector_stack h ++ [sel]) h) _ _ Hfiled Hm).
Qed.

(** X1. In a project whose services are filed under their own names, which
    is how [Project.__init__] files them, every name that a resolution
    returns is the name of a service of the project: the caller's lookup
    [services_by_name[name]] cannot miss. *)
Theorem X1_resolved_names_are_services (sel : string)
    (service_sets : list ServiceSet.t) (h : Heap) (r : gset string) :
  filed_by_name (project h) →
  (ServiceSet_resolve sel service_sets h).1 = Return r
  ∨ (Ads_resolve sel h).1 = Return r →
  r ⊆ dom (Project.services_by_name (project h)).
Proof.
  intros Hfiled Hr.
  assert (∀ s l, (ServiceSet_resolve s l h).1 = Return r →
            r ⊆ dom (Project.services_by_name (project h))) as Hset.
  { intros s l. rewrite ServiceSet_resolve_unfold.
    destruct (_resolve _ _ _ _) as [r' h'] eqn:Hres. simpl. intros ->.
    by apply (_resolve_names _ _ _ (with_stack [] h) _ _ Hfiled Hres). }
  destruct Hr as [Hr|Hr]; [by eapply Hset|].
  rewrite Ads_resolve_unfold in Hr. by eapply Hset.
Qed.

Lemma X1_witness :
  filed_by_name (project (example_heap scenario_groups))
  ∧ ({[ "api"; "web"; "db" ]} : gset string)
    ⊆ dom (Project.services_by_name (project (example_heap scenario_groups))).
Proof.
  assert (filed_by_name (project (example_heap scenario_groups))) as Hfiled
    by apply Project_init_filed_by_name.
  split; [exact Hfiled|].
  apply (X1_resolved_names_are_services "everything" scenario_groups
           (example_heap scenario_groups) _ Hfiled).
  left. vm_compute. reflexivity.
Defined.

(** ** Resolution returns what the group graph says *)

Lemma _resolve_denotes d sel ssbn h r h' :
  _resolve d sel ssbn h = (Return r, h') →
  ∀ n, n ∈ r ↔ denotes (project h) ssbn sel n.
Proof.
  revert sel h r h'. induction d as [|d IH]; intros sel h r h' Hr n; [done|].
  apply _resolve_Return_inv in Hr
    as (Hne & _ & _
        & [[-> ->]|[(Hall & svc & Hsvc & ->)|(g & rs & Hexp & _ & -> & Hrs)]]).
  - split; [by constructor|].
    inversion 1 as [|? ? ? Hall|? ? ? ? (_ & Hall & _)]; done.
  - rewrite elem_of_singleton. split; [intros ->; by constructor|].
    inversion 1 as [|? svc' ? ? Hsvc'|? ? ? ? (_ & _ & Hnone & _)];
      simplify_eq; done.
  - rewrite elem_of_union_list. split.
    + intros (X & HX & Hn).
      apply list_elem_of_lookup in HX as [i Hi].
      destruct (Forall2_lookup_r _ _ _ _ _ Hrs Hi) as (m & Hm & Hmr).
      eapply denotes_group; [done|by eapply list_elem_of_lookup_2|].
      by apply (IH _ _ _ _ Hmr).
    + destruct Hexp as (_ & Hall & Hnone & Hg).
      inversion 1 as [|? ? ? ? Hsvc|? g' m ? (_ & _ & _ & Hg') Hm Hmn];
        simplify_eq.
      apply list_elem_of_lookup in Hm as [i Hi].
      destruct (Forall2_lookup_l _ _ _ _ _ Hrs Hi) as (X & HX & Hmr).
      exists X. split; [by eapply list_elem_of_lookup_2|].
      by apply (IH _ _ _ _ Hmr).
Qed.

(** X2. A resolution that returns, returns exactly the service names that
    the selector stands for in the group graph: every service for "all",
    the service itself for the name of a service, and for a group the names
    its members stand for. *)
Theorem X2_resolution_denotes (sel : string) (service_sets : list ServiceSet.t)
    (h : Heap) (r : gset string) :
  (ServiceSet_resolve sel service_sets h).1 = Return r →
  ∀ n, n ∈ r ↔ denotes (project h) (dict_by ServiceSet.name service_sets) sel n.
Proof.
  rewrite ServiceSet_resolve_unfold.
  destruct (_resolve _ _ _ _) as [r' h'] eqn:Hres. simpl. intros -> n.
  by rewrite (_resolve_denotes _ _ _ _ _ _ Hres).
Qed.

Lemma X2_witness :
  denotes (project (example_heap scenario_groups))
    (dict_by ServiceSet.name scenario_groups) "everything" "web".
Proof.
  apply (X2_resolution_denotes "everything" scenario_groups
           (example_heap scenario_groups) {[ "api"; "web"; "db" ]}).
  - vm_compute. reflexivity.
  - set_solver.
Defined.

(** ** The chain of a selector error *)

Lemma member_chain_cons (ssbn : gmap string ServiceSet.t) a b rest g :
  ssbn !! a = Some g → b ∈ ServiceSet.selectors g →
  member_chain ssbn (b :: rest) → member_chain ssbn (a :: b :: rest).
Proof. intros Hg Hb Hrest. split; [by exists g|done]. Qed.

Lemma _resolve_BadSelector_chain d sel ssbn h msg h' :
  NoDup (selector_stack h) →
  _resolve d sel ssbn h = (Raise (BadSelectorException msg), h') →
  ∃ mid culprit,
    selector_stack h' = selector_stack h ++ mid
    ∧ head (mid ++ [culprit]) = Some sel
    ∧ NoDup (selector_stack h ++ mid)
    ∧ member_chain ssbn (mid ++ [culprit])
    ∧ ((culprit ∈ selector_stack h ++ mid
        ∧ msg = circular_msg (selector_stack h ++ mid ++ [culprit]))
       ∨ (culprit ≠ "all"
          ∧ Project.services_by_name (project h) !! culprit = None
          ∧ ssbn !! culprit = None
          ∧ msg = unresolved_msg culprit
                    (selector_stack h ++ mid ++ [culprit]))).
Proof.
  revert sel h. induction d as [|d IH]; intros sel h Hnd Hr; [done|].
  apply _resolve_Raise_inv in Hr
    as [(_ & [=] & _)
       |[(_ & Hin & -> & [= ->])
        |[(_ & Hnot & Hall & -> & Hsvc & Hg & [= ->])
         |(g & Hexp & Hnot & [(_ & [=] & _)|(m & Hm & Hmr)])]]].
  - exists [], sel. rewrite !app_nil_r. split_and!; try done. by left.
  - exists [], sel. rewrite !app_nil_r. split_and!; try done. by right.
  - apply IH in Hmr as (mid & culprit & Hstack & Hhead & Hnd' & Hchain & Hmsg).
    + simpl in *. rewrite <-!app_assoc in *. simpl in *.
      exists (sel :: mid), culprit. split_and!; try done.
      destruct Hexp as (_ & _ & _ & Hg).
      change ((sel :: mid) ++ [culprit]) with (sel :: (mid ++ [culprit])).
      destruct (mid ++ [culprit]) as [|m' rest]; [done|].
      injection Hhead as ->. by eapply member_chain_cons.
    + simpl. apply NoDup_app. split_and!; [done| |apply NoDup_singleton].
      intros x Hx ->%list_elem_of_singleton. done.
Qed.

(** X3. When [ServiceSet.resolve] fails with a [BadSelectorException], the
    chain of the message begins with the selector that was asked for, goes
    from each group to one of its members, passes through no group twice
    and ends with the selector at fault, which is either already on the
    chain (circular) or not "all", not a service and not a group
    (unresolved); the chain without the selector at fault is what is left
    on the expansion stack. *)
Theorem X3_error_chain (sel : string) (service_sets : list ServiceSet.t)
    (h : Heap) (msg : string) :
  (ServiceSet_resolve sel service_sets h).1
    = Raise (BadSelectorException msg) →
  ∃ mid culprit,
    selector_stack (ServiceSet_resolve sel service_sets h).2 = mid
    ∧ head (mid ++ [culprit]) = Some sel
    ∧ NoDup mid
    ∧ member_chain (dict_by ServiceSet.name service_sets) (mid ++ [culprit])
    ∧ ((culprit ∈ mid ∧ msg = circular_msg (mid ++ [culprit]))
       ∨ (culprit ≠ "all"
          ∧ Project.services_by_name (project h) !! culprit = None
          ∧ dict_by ServiceSet.name service_sets !! culprit = None
          ∧ msg = unresolved_msg culprit (mid ++ [culprit]))).
Proof.
  rewrite ServiceSet_resolve_unfold.
  destruct (_resolve _ _ _ _) as [r h'] eqn:Hres. simpl. intros ->.
  apply _resolve_BadSelector_chain in Hres; [|apply NoDup_nil_2].
  destruct Hres as (mid & culprit & ? & ? & ? & ? & ?).
  exists mid, culprit. done.
Qed.

Lemma X3_witness :
  ∃ mid culprit,
    selector_stack
      (ServiceSet_resolve "a" lasso_groups (example_heap lasso_groups)).2 = mid
    ∧ head (mid ++ [culprit]) = Some "a"
    ∧ NoDup mid
    ∧ member_chain (dict_by ServiceSet.name lasso_groups) (mid ++ [culprit])
    ∧ ((culprit ∈ mid
        ∧ "Definition of selector 'a' is circular: a -> b -> c -> b"
          = circular_msg (mid ++ [culprit]))
       ∨ (culprit ≠ "all"
          ∧ Project.services_by_name
              (project (example_heap lasso_groups)) !! culprit = None
          ∧ dict_by ServiceSet.name lasso_groups !! culprit = None
          ∧ "Definition of selector 'a' is circular: a -> b -> c -> b"
            = unresolved_msg culprit (mid ++ [culprit]))).
Proof.
  apply (X3_error_chain "a" lasso_groups (example_heap lasso_groups)).
  vm_compute. reflexivity.
Defined.

(** ** Which exceptions a resolution can raise *)






(** ** Groups that are never expanded *)

Lemma mapM_ext_same_objects {A B} (f g : A → M B) (l : list A) (h0 h : Heap) :
  (∀ x h1, same_objects h0 h1 → f x h1 = g x h1) →
  (∀ x h1, same_objects h1 (g x h1).2) →
  same_objects h0 h → mapM f l h = mapM g l h.
Proof.
  intros Hfg Hg. revert h. induction l as [|x l IH]; intros h Hh; [done|].
  rewrite !mapM_cons, Hfg by done. specialize (Hg x h).
  destruct (g x h) as [[y|e] h1]; [|done].
  rewrite IH; [done|]. by eapply same_objects_trans.
Qed.

Lemma _resolve_same_live_groups d sel (ssbn ssbn' : gmap string ServiceSet.t) h :
  (∀ k, k ≠ "" → k ≠ "all" →
        Project.services_by_name (project h) !! k = None →
        ssbn !! k = ssbn' !! k) →
  _resolve d sel ssbn h = _resolve d sel ssbn' h.
Proof.
  revert sel h. induction d as [|d IH]; intros sel h Hsame; [done|].
  rewrite !_resolve_S.
  case_bool_decide as Hne; [done|].
  case_bool_decide as Hin; [done|].
  case_bool_decide as Hall; [done|].
  destruct (Project.services_by_name (project h) !! sel) eqn:Hsvc; [done|].
  rewrite <-(Hsame sel) by done.
  destruct (ssbn !! sel) as [g|]; [|done].
  rewrite (mapM_ext_same_objects (λ s, _resolve d s ssbn)
             (λ s, _resolve d s ssbn') _ h); [done| | |done].
  - intros x h1 [Hp _]. apply IH. by rewrite Hp.
  - intros x h1. apply _resolve_same_objects.
Qed.

Lemma dict_by_filter_lookup (Q : ServiceSet.t → Prop)
    `{!∀ g, Decision (Q g)} (P : string → Prop)
    (l : list ServiceSet.t) (k : string) :
  (∀ g, Q g ↔ P (ServiceSet.name g)) →
  (P k → dict_by ServiceSet.name (filter Q l) !! k
         = dict_by ServiceSet.name l !! k)
  ∧ (¬ P k → dict_by ServiceSet.name (filter Q l) !! k = None).
Proof.
  intros HQ. induction l as [|x l [IHP IHN]] using rev_ind; [done|].
  rewrite filter_app, filter_cons, filter_nil.
  destruct (decide (Q x)) as [Hx|Hx].
  - rewrite !dict_by_snoc.
    destruct (decide (ServiceSet.name x = k)) as [<-|Hk].
    + rewrite !lookup_insert_eq. split; [done|].
      intros Hn. by apply HQ in Hx.
    + by rewrite !lookup_insert_ne.
  - rewrite app_nil_r, dict_by_snoc. split; [|done].
    intros Hk. rewrite lookup_insert_ne; [by apply IHP|].
    intros Heq. apply Hx, HQ. by rewrite Heq.
Qed.

(** X6. A group named "all", named by the empty string or named like a
    service of the project is never expanded: leaving such groups out of
    the list handed to [ServiceSet.resolve] changes the result, value or
    exception, of no resolution. *)
Theorem X6_shadowed_groups_are_dead (sel : string)
    (service_sets : list ServiceSet.t) (h : Heap) :
  (ServiceSet_resolve sel
     (filter (λ g, ServiceSet.name g ≠ ""
                   ∧ ServiceSet.name g ≠ "all"
                   ∧ Project.services_by_name (project h) !! ServiceSet.name g
                     = None)
        service_sets) h).1
  = (ServiceSet_resolve sel service_sets h).1.
Proof.
  set (live := λ k : string,
         k ≠ "" ∧ k ≠ "all"
         ∧ Project.services_by_name (project h) !! k = None).
  rewrite !ServiceSet_resolve_unfold.
  set (ssbn := dict_by ServiceSet.name service_sets).
  set (ssbn' := dict_by ServiceSet.name (filter _ service_sets)).
  assert (∀ k, (live k → ssbn' !! k = ssbn !! k)
               ∧ (¬ live k → ssbn' !! k = None)) as Hlookup.
  { intros k. by apply dict_by_filter_lookup. }
  assert (size ssbn' ≤ size ssbn)%nat as Hsize.
  { rewrite <-!size_dom. apply subseteq_size. intros k.
    rewrite !elem_of_dom. destruct (Hlookup k) as [Hlive Hdead].
    destruct (decide (live k)) as [Hk|Hk].
    - by rewrite Hlive.
    - rewrite Hdead by done. by intros [? ?]. }
  rewrite <-(_resolve_depth_irrelevant (S (size ssbn')) (S (size ssbn)));
    [|simpl; rewrite unexpanded_nil; lia|lia].
  f_equal. apply _resolve_same_live_groups.
  intros k Hne Hall Hsvc. by apply Hlookup.
Qed.

(** ** The order of names *)

Lemma string_compare_Lt_trans (a b c : string) :
  String.compare a b = Lt → String.compare b c = Lt →
  String.compare a c = Lt.
Proof.
  revert b c. induction a as [|x a IH]; intros [|y b] [|z c]; simpl; try done.
  unfold Ascii.compare.
  destruct (N.compare_spec (Ascii.N_of_ascii x) (Ascii.N_of_ascii y))
    as [Hxy|Hxy|Hxy]; [| |done];
  destruct (N.compare_spec (Ascii.N_of_ascii y) (Ascii.N_of_ascii z))
    as [Hyz|Hyz|Hyz]; try done; intros Hab Hbc.
  - rewrite Hxy, Hyz, N.compare_refl. by eapply IH.
  - rewrite Hxy. by apply N.compare_lt_iff in Hyz as ->.
  - rewrite <-Hyz. by apply N.compare_lt_iff in Hxy as ->.
  - assert (Ascii.N_of_ascii x < Ascii.N_of_ascii z)%N as Hxz
      by (by etrans).
    by apply N.compare_lt_iff in Hxz as ->.
Qed.

Lemma str_le_spec (a b : string) :
  str_le a b ↔ String.compare a b = Lt ∨ a = b.
Proof.
  unfold str_le, String.leb. split.
  - destruct (String.compare a b) eqn:Hc; [|by left|done].
    right. by apply String.compare_eq_iff.
  - intros [->| ->]; [done|].
    assert (String.compare b b = Eq) as ->; [|done].
    pose proof (String.compare_antisym b b) as Hanti.
    by destruct (String.compare b b).
Qed.

#[global] Instance str_le_trans : Transitive str_le.
Proof.
  intros a b c [Hab| ->]%str_le_spec [Hbc| ->]%str_le_spec;
    apply str_le_spec; eauto using string_compare_Lt_trans.
Qed.

#[global] Instance str_le_total : Total str_le.
Proof. intros a b. apply String.leb_total. Qed.

#[global] Instance str_le_antisymm : AntiSymm (=) str_le.
Proof. intros a b. apply String.leb_antisym. Qed.

Lemma sorted_StronglySorted (l : list string) :
  StronglySorted str_le (sorted l).
Proof. apply StronglySorted_merge_sort; apply _. Qed.

Lemma sorted_Permutation (l : list string) : sorted l ≡ₚ l.
Proof. apply merge_sort_Permutation. Qed.

(** The sorted list does not depend on the order of the names given. *)
Lemma sorted_Permutation_eq (l l' : list string) :
  l ≡ₚ l' → sorted l = sorted l'.
Proof.
  intros Hperm. apply (StronglySorted_unique str_le);
    [apply sorted_StronglySorted..|].
  by rewrite !sorted_Permutation.
Qed.

Lemma StronglySorted_NoDup_strict (l : list string) :
  StronglySorted str_le l → NoDup l →
  StronglySorted (λ a b, str_le a b ∧ a ≠ b) l.
Proof.
  induction 1 as [|x l Hl IH Hx]; intros Hnd; [constructor|].
  apply NoDup_cons in Hnd as [Hnot Hnd].
  constructor; [by apply IH|].
  rewrite Forall_forall in Hx |- *. intros y Hy. split; [by apply Hx|].
  by intros ->.
Qed.

(** ** Calls of the facade in a row *)

Lemma Ads_resolve_same_objects sel h : same_objects h (Ads_resolve sel h).2.
Proof. rewrite Ads_resolve_unfold. apply ServiceSet_resolve_same_objects. Qed.

Lemma Ads_resolve_fresh_stack sel h h' :
  same_objects h h' → Ads_resolve sel h' = Ads_resolve sel h.
Proof.
  intros Hsame. pose proof Hsame as [Hp Hq].
  rewrite !Ads_resolve_unfold, Hp, Hq.
  by apply ServiceSet_resolve_fresh_stack.
Qed.

Lemma mapM_Ads_resolve_Return l h sets h1 :
  mapM Ads_resolve l h = (Return sets, h1) →
  same_objects h h1
  ∧ Forall2 (λ s r, (Ads_resolve s h).1 = Return r) l sets.
Proof.
  revert h sets h1. induction l as [|s l IH]; intros h sets h1.
  - intros [= <- <-]. split; [done|constructor].
  - rewrite mapM_cons.
    pose proof (Ads_resolve_same_objects s h) as Hs.
    destruct (Ads_resolve s h) as [[r|e] h0] eqn:Hr; [|done].
    destruct (mapM Ads_resolve l h0) as [[rs|e] h2] eqn:Hl; [|done].
    intros [= <- <-]. apply IH in Hl as [Hsame Hall].
    split; [by eapply same_objects_trans|].
    constructor; [by rewrite Hr|].
    eapply Forall2_impl; [exact Hall|]. intros x y. simpl.
    by rewrite (Ads_resolve_fresh_stack x h h0).
Qed.

(** The exception of a list of resolutions is that of its first selector
    that does not resolve. *)
Lemma mapM_Ads_resolve_Raise l h e h1 :
  mapM Ads_resolve l h = (Raise e, h1) →
  ∃ pre s post,
    l = pre ++ s :: post
    ∧ Forall (λ x, ∃ r, (Ads_resolve x h).1 = Return r) pre
    ∧ (Ads_resolve s h).1 = Raise e.
Proof.
  revert h e h1. induction l as [|s l IH]; intros h e h1; [done|].
  rewrite mapM_cons.
  pose proof (Ads_resolve_same_objects s h) as Hs.
  destruct (Ads_resolve s h) as [[r|e'] h0] eqn:Hr.
  - destruct (mapM Ads_resolve l h0) as [[rs|e'] h2] eqn:Hl; [done|].
    intros [= <- <-]. apply IH in Hl as (pre & x & post & -> & Hpre & Hx).
    exists (s :: pre), x, post. split_and!; [done| |].
    + constructor; [by rewrite Hr; eauto|].
      eapply Forall_impl; [exact Hpre|]. intros y [ry Hy].
      exists ry. by rewrite <-(Ads_resolve_fresh_stack y h h0).
    + by rewrite <-(Ads_resolve_fresh_stack x h h0).
  - intros [= <- <-]. exists [], s, l. by rewrite Hr.
Qed.

Lemma Ads_resolve_names sel h r :
  filed_by_name (project h) → (Ads_resolve sel h).1 = Return r →
  r ⊆ dom (Project.services_by_name (project h)).
Proof.
  intros Hfiled. rewrite Ads_resolve_unfold, ServiceSet_resolve_unfold.
  destruct (_resolve _ _ _ _) as [r' h'] eqn:Hres. simpl. intros ->.
  by apply (_resolve_names _ _ _ (with_stack [] h) _ _ Hfiled Hres).
Qed.

Lemma mapM_services_getitem ks h :
  Forall (λ k, k ∈ dom (Project.services_by_name (project h))) ks →
  ∃ services,
    mapM services_getitem ks h = (Return services, h)
    ∧ Forall2 (λ k svc, Project.services_by_name (project h) !! k = Some svc)
        ks services.
Proof.
  induction 1 as [|k ks [svc Hk]%elem_of_dom _ (services & Hmap & Hall)].
  - exists []. split; [done|constructor].
  - exists (svc :: services). rewrite mapM_cons.
    unfold services_getitem at 1. unfold_M. rewrite Hk, Hmap.
    split; [done|by constructor].
Qed.

(** ** From selectors to services *)

Lemma _resolve_selectors_lookups sels h sets h1 :
  filed_by_name (project h) →
  mapM Ads_resolve sels h = (Return sets, h1) →
  ∃ services,
    mapM services_getitem (sorted (elements (⋃ sets))) h1
      = (Return services, h1)
    ∧ Forall2 (λ k svc, Project.services_by_name (project h) !! k = Some svc)
        (sorted (elements (⋃ sets))) services.
Proof.
  intros Hfiled [[Hp _] Hall]%mapM_Ads_resolve_Return.
  rewrite <-Hp. apply mapM_services_getitem. rewrite Hp.
  apply Forall_forall. intros k.
  rewrite sorted_Permutation, elem_of_elements, elem_of_union_list.
  intros (X & HX & Hk).
  apply list_elem_of_lookup in HX as [i Hi].
  destruct (Forall2_lookup_r _ _ _ _ _ Hall Hi) as (s & _ & Hs).
  by apply (Ads_resolve_names _ _ _ Hfiled Hs).
Qed.

Lemma _resolve_selectors_unfold selectors fail_if_empty h :
  _resolve_selectors selectors fail_if_empty h =
    let sels := if bool_decide (length selectors = 0)
                then ["default"] else selectors in
    match mapM Ads_resolve sels h with
    | (Raise (BadSelectorException msg), h1) => (Failed (NotFound msg), h1)
    | (Raise e, h1) => (Failed (Uncaught e), h1)
    | (Return sets, h1) =>
        match reduce (∪) sets with
        | None => (Failed (Uncaught TypeError), h1)
        | Some service_names =>
            match mapM services_getitem (sorted (elements service_names)) h1
            with
            | (Raise e, h2) => (Failed (Uncaught e), h2)
            | (Return services, h2) =>
                if fail_if_empty && bool_decide (length services = 0) then
                  (Failed (NotFound ("No services found that match '"
                                     +:+ join " " sels +:+ "'")), h2)
                else (Done services, h2)
            end
        end
    end.
Proof. done. Qed.

(** X7. In a project whose services are filed under their own names,
    [_resolve_selectors] has one failure of its own, [NotFound] (exit code
    11).  Every other failure is the exception with which [Ads.resolve]
    failed for the first selector that does not resolve, passed on as it
    is when it is not a [BadSelectorException]: no [BadSelectorException]
    gets past, the [reduce] never meets an empty list, and the lookup of a
    resolved name in [services_by_name] never raises [KeyError]. *)
Theorem X7_resolve_selectors_failures (selectors : list string)
    (fail_if_empty : bool) (h : Heap) (e : command_exn) :
  filed_by_name (project h) →
  (_resolve_selectors selectors fail_if_empty h).1 = Failed e →
  (∃ msg, e = NotFound msg)
  ∨ (∃ pre s post e0,
       (if bool_decide (length selectors = 0) then ["default"] else selectors)
         = pre ++ s :: post
       ∧ Forall (λ x, ∃ r, (Ads_resolve x h).1 = Return r) pre
       ∧ (Ads_resolve s h).1 = Raise e0
       ∧ (∀ msg, e0 ≠ BadSelectorException msg)
       ∧ e = Uncaught e0).
Proof.
  intros Hfiled. rewrite _resolve_selectors_unfold. cbv zeta.
  set (sels := if bool_decide (length selectors = 0)
               then ["default"] else selectors).
  destruct (mapM Ads_resolve sels h) as [[sets|e0] h1] eqn:Hmap.
  - destruct (_resolve_selectors_lookups _ _ _ _ Hfiled Hmap)
      as (services & Hget & _).
    destruct sets as [|X sets].
    { apply mapM_Ads_resolve_Return in Hmap as [_ Hall].
      apply Forall2_nil_inv_r in Hall. unfold sels in Hall.
      case_bool_decide as Hlen; [done|]. subst. done. }
    rewrite reduce_union, Hget by done.
    destruct (fail_if_empty && _); simpl; [|done].
    intros [= <-]. eauto.
  - apply mapM_Ads_resolve_Raise in Hmap as (pre & s & post & Hsels & Hpre & Hs).
    destruct e0 as [msg| | | |]; simpl; intros [= <-];
      [left; by eauto|right; exists pre, s, post; eexists;
                      split_and!; [done..| |done]; done..].
Qed.

Lemma X7_witness :
  (∃ msg, Uncaught TypeError = NotFound msg)
  ∨ (∃ pre s post e0,
       (if bool_decide (length ["api"; "nothing"] = 0)
        then ["default"] else ["api"; "nothing"])
         = pre ++ s :: post
       ∧ Forall (λ x, ∃ r, (Ads_resolve x (example_heap empty_group)).1
                           = Return r) pre
       ∧ (Ads_resolve s (example_heap empty_group)).1 = Raise e0
       ∧ (∀ msg, e0 ≠ BadSelectorException msg)
       ∧ Uncaught TypeError = Uncaught e0).
Proof.
  apply (X7_resolve_selectors_failures ["api"; "nothing"] true
           (example_heap empty_group)).
  - apply Project_init_filed_by_name.
  - vm_compute. reflexivity.
Defined.

(** X8. In a project whose services are filed under their own names, the
    services that [_resolve_selectors] returns are those named by the union
    of the resolutions of the selectors (of "default" when no selector is
    given), each once and in ascending order of name, whatever the order
    in which the set of names is enumerated; each is the service filed
    under its name; and with [fail_if_empty] the list is not empty. *)
Theorem X8_resolve_selectors_services (selectors : list string)
    (fail_if_empty : bool) (h : Heap) (services : list Service.t) :
  filed_by_name (project h) →
  (_resolve_selectors selectors fail_if_empty h).1 = Done services →
  ∃ sets,
    Forall2 (λ s r, (Ads_resolve s h).1 = Return r)
      (match selectors with [] => ["default"] | _ :: _ => selectors end) sets
    ∧ (∀ names, names ≡ₚ elements (⋃ sets) →
                Service.name <$> services = sorted names)
    ∧ StronglySorted (λ a b, str_le a b ∧ a ≠ b) (Service.name <$> services)
    ∧ Forall (λ svc, Project.services_by_name (project h) !! Service.name svc
                     = Some svc) services
    ∧ (fail_if_empty = true → services ≠ []).
Proof.
  intros Hfiled. rewrite _resolve_selectors_unfold. cbv zeta.
  assert ((if bool_decide (length selectors = 0)
           then ["default"] else selectors)
          = match selectors with [] => ["default"] | _ :: _ => selectors end)
    as -> by (by destruct selectors).
  set (sels := match selectors with [] => _ | _ :: _ => _ end).
  destruct (mapM Ads_resolve sels h) as [[sets|e0] h1] eqn:Hmap;
    [|by destruct e0].
  destruct (_resolve_selectors_lookups _ _ _ _ Hfiled Hmap)
    as (svcs & Hget & Hsvcs).
  apply mapM_Ads_resolve_Return in Hmap as [_ Hall].
  destruct sets as [|X sets]; [done|].
  rewrite reduce_union, Hget by done.
  destruct (fail_if_empty && bool_decide (length svcs = 0)) eqn:Hempty;
    cbn [fst]; [done|].
  intros [= <-]. exists (X :: sets).
  assert (Service.name <$> svcs = sorted (elements (⋃ (X :: sets))))
    as Hnames.
  { clear -Hsvcs Hfiled.
    induction Hsvcs as [|k svc ks svcs Hk _ IH]; [done|].
    by rewrite fmap_cons, IH, (Hfiled _ _ Hk). }
  split_and!.
  - done.
  - intros names Hperm. rewrite Hnames. symmetry.
    by apply sorted_Permutation_eq.
  - rewrite Hnames. apply StronglySorted_NoDup_strict.
    + apply sorted_StronglySorted.
    + rewrite sorted_Permutation. apply NoDup_elements.
  - clear -Hsvcs Hfiled.
    induction Hsvcs as [|k svc ks svcs Hk _ IH]; constructor; [|done].
    by rewrite (Hfiled _ _ Hk).
  - intros ->. simpl in Hempty. case_bool_decide as Hlen; [done|].
    intros ->. by apply Hlen.
Qed.

Lemma X8_witness :
  ∃ sets,
    Forall2 (λ s r, (Ads_resolve s (example_heap scenario_groups)).1
                    = Return r)
      ["web_stack"; "db"; "api"] sets
    ∧ (∀ names, names ≡ₚ elements (⋃ sets) →
                Service.name <$>
                  [example_service "api"; example_service "db";
                   example_service "web"]
                = sorted names)
    ∧ StronglySorted (λ a b, str_le a b ∧ a ≠ b)
        (Service.name <$>
           [example_service "api"; example_service "db";
            example_service "web"])
    ∧ Forall (λ svc, Project.services_by_name
                       (project (example_heap scenario_groups))
                       !! Service.name svc = Some svc)
        [example_service "api"; example_service "db"; example_service "web"]
    ∧ (true = true →
       [example_service "api"; example_service "db"; example_service "web"]
       ≠ []).
Proof.
  apply (X8_resolve_selectors_services ["web_stack"; "db"; "api"] true
           (example_heap scenario_groups)).
  - apply Project_init_filed_by_name.
  - vm_compute. reflexivity.
Defined.

(** ** Loading groups from a parsed manifest *)

Lemma load_selectors_Loaded items origin_file selectors :
  load_selectors items origin_file = Loaded selectors
  ↔ items = YStr <$> selectors.
Proof.
  revert selectors. induction items as [|v items IH]; intros selectors; simpl.
  - split; [intros [= <-]; done|]. by destruct selectors.
  - destruct v as [|b|n|s|l|d]; simpl;
      try (split; [done|by destruct selectors]).
    destruct (load_selectors items origin_file) as [sels|f t w].
    + split.
      * intros [= <-]. rewrite fmap_cons. f_equal. by apply IH.
      * destruct selectors as [|s' selectors]; [done|].
        rewrite fmap_cons. intros [= -> Hitems]. f_equal. f_equal.
        apply IH in Hitems. by injection Hitems.
    + split; [done|]. destruct selectors as [|s' selectors]; [done|].
      rewrite fmap_cons. intros [= -> Hitems]. by apply IH in Hitems.
Qed.

Lemma load_selectors_first_bad pre v post origin_file :
  isinstance v py_str = false →
  load_selectors ((YStr <$> pre) ++ v :: post) origin_file
  = ParseProjectException origin_file py_str v.
Proof.
  intros Hv. induction pre as [|s pre IH].
  - simpl. unfold _expect. by rewrite Hv.
  - rewrite fmap_cons.
    change (load_selectors ((YStr s :: (YStr <$> pre)) ++ v :: post)
              origin_file)
      with (match load_selectors ((YStr <$> pre) ++ v :: post) origin_file
            with
            | Loaded selectors => Loaded (s :: selectors)
            | ParseProjectException f t w => ParseProjectException f t w
            end).
    by rewrite IH.
Qed.

Lemma ServiceSet_load_Loaded name spec origin_file g :
  ServiceSet_load name spec origin_file = Loaded g
  ↔ spec = YList (YStr <$> ServiceSet.selectors g) ∧ ServiceSet.name g = name.
Proof.
  destruct g as [n sels]. unfold ServiceSet_load, _expect. simpl.
  destruct spec as [|b|z|s|items|d]; simpl; try (split; [done|by intros [? ?]]).
  pose proof (load_selectors_Loaded items origin_file) as Hsel.
  destruct (load_selectors items origin_file) as [sels'|f t w].
  - split.
    + intros [= <- <-]. split; [|done]. f_equal. by apply Hsel.
    + intros [[= Hitems] ->]. f_equal. f_equal.
      apply Hsel in Hitems. by injection Hitems.
  - split; [done|]. intros [[= Hitems] _]. by apply Hsel in Hitems.
Qed.

(** X9. [ServiceSet.load] returns a group exactly for a list whose items
    are all [str] values, and the group then has the name given and those
    items, in order, as selectors; anything that is not a list is refused
    with a [ParseProjectException] that expects a list, and a list with an
    item that is not a [str] is refused with one that shows the first such
    item. *)
Theorem X9_ServiceSet_load (name : string) (spec : yaml) (origin_file : string) :
  (∀ g, ServiceSet_load name spec origin_file = Loaded g
        ↔ spec = YList (YStr <$> ServiceSet.selectors g)
          ∧ ServiceSet.name g = name)
  ∧ (isinstance spec py_list = false →
     ServiceSet_load name spec origin_file
     = ParseProjectException origin_file py_list spec)
  ∧ (∀ pre v post,
       spec = YList ((YStr <$> pre) ++ v :: post) →
       isinstance v py_str = false →
       ServiceSet_load name spec origin_file
       = ParseProjectException origin_file py_str v).
Proof.
  split_and!.
  - intros g. apply ServiceSet_load_Loaded.
  - intros Hspec. unfold ServiceSet_load, _expect. rewrite Hspec.
    by destruct spec.
  - intros pre v post -> Hv. unfold ServiceSet_load, _expect. simpl.
    by rewrite load_selectors_first_bad.
Qed.

Lemma X9_witness :
  ServiceSet_load "web_stack" (YList [YStr "api"; YInt 3; YNone]) "adsroot.yml"
  = ParseProjectException "adsroot.yml" py_str (YInt 3)
  ∧ ServiceSet_load "web_stack" (YStr "api") "adsroot.yml"
    = ParseProjectException "adsroot.yml" py_list (YStr "api").
Proof.
  split.
  - apply (proj2 (proj2 (X9_ServiceSet_load "web_stack"
                           (YList [YStr "api"; YInt 3; YNone]) "adsroot.yml"))
             ["api"] (YInt 3) [YNone]); reflexivity.
  - apply (proj1 (proj2 (X9_ServiceSet_load "web_stack" (YStr "api")
                           "adsroot.yml"))).
    reflexivity.
Defined.

Lemma dict_by_NoDup_lookup {A} (key : A → string) (l : list A) (x : A) :
  NoDup (key <$> l) → x ∈ l → dict_by key l !! key x = Some x.
Proof.
  induction l as [|y l IH] using rev_ind; [by intros _ ?%elem_of_nil|].
  rewrite fmap_app, dict_by_snoc. simpl.
  intros (Hnd & Hy & _)%NoDup_app [Hx| ->%list_elem_of_singleton]%elem_of_app.
  - rewrite lookup_insert_ne; [by apply IH|].
    intros Heq. apply (Hy (key x)); [|rewrite Heq; set_solver].
    by apply list_elem_of_fmap_2.
  - apply lookup_insert_eq.
Qed.

Lemma load_items_Loaded items origin_file gs :
  load_items items origin_file = Loaded gs
  ↔ Forall2 (λ item g, item.2 = YList (YStr <$> ServiceSet.selectors g)
                       ∧ ServiceSet.name g = item.1) items gs.
Proof.
  revert gs. induction items as [|[n v] items IH]; intros gs; simpl.
  - split; [intros [= <-]; constructor|]. by inversion 1.
  - pose proof (ServiceSet_load_Loaded n v origin_file) as Hload.
    destruct (ServiceSet_load n v origin_file) as [g|f t w].
    + destruct (load_items items origin_file) as [gs'|f t w].
      * split.
        -- intros [= <-]. constructor; [by apply Hload|by apply IH].
        -- inversion 1 as [|? g' ? gs'' Hg Hgs]; simplify_eq.
           apply Hload in Hg. apply IH in Hgs. by simplify_eq.
      * split; [done|]. inversion 1 as [|? g' ? gs'' Hg Hgs]; simplify_eq.
        by apply IH in Hgs.
    + split; [done|]. inversion 1 as [|? g' ? gs'' Hg Hgs]; simplify_eq.
      by apply Hload in Hg.
Qed.

#[global] Instance YStr_inj : Inj (=) (=) YStr.
Proof. by intros s s' [= ->]. Qed.

Lemma load_items_names items origin_file gs :
  load_items items origin_file = Loaded gs →
  ServiceSet.name <$> gs = items.*1.
Proof.
  intros Hall%load_items_Loaded.
  induction Hall as [|item g items gs [_ Hg] _ IH]; [done|].
  by rewrite !fmap_cons, IH, Hg.
Qed.

(** X10. A falsy document ([None], an empty mapping, an empty list and the
    like) gives no group, not an error, and a truthy document that is not a
    mapping is refused.  The groups that [ServiceSet.load_multiple] returns
    have pairwise distinct names, so filing them by name hides none of
    them; they are the entries of the mapping given, a group of name [n]
    with selectors [sels] for every entry of key [n] whose value is the
    list of the [str] values [sels]. *)
Theorem X10_ServiceSet_load_multiple (spec : yaml) (origin_file : string) :
  (truthy spec = false → ServiceSet_load_multiple spec origin_file = Loaded [])
  ∧ (truthy spec = true → isinstance spec py_dict = false →
     ServiceSet_load_multiple spec origin_file
     = ParseProjectException origin_file py_dict spec)
  ∧ ∀ gs, ServiceSet_load_multiple spec origin_file = Loaded gs →
      NoDup (ServiceSet.name <$> gs)
      ∧ (∀ g, g ∈ gs
              ↔ dict_by ServiceSet.name gs !! ServiceSet.name g = Some g)
      ∧ (∃ entries,
           (spec = YDict entries ∨ (truthy spec = false ∧ entries = ∅))
           ∧ ∀ g, g ∈ gs
                  ↔ entries !! ServiceSet.name g
                    = Some (YList (YStr <$> ServiceSet.selectors g))).
Proof.
  split_and!.
  { intros Hfalsy. unfold ServiceSet_load_multiple. rewrite Hfalsy.
    unfold _expect. simpl. by rewrite map_to_list_empty. }
  { intros Htruthy Hnot. unfold ServiceSet_load_multiple. rewrite Htruthy.
    unfold _expect. rewrite Hnot. by destruct spec. }
  intros gs. unfold ServiceSet_load_multiple.
  set (spec' := if truthy spec then spec else YDict ∅).
  assert (∃ entries,
            (spec' = YDict entries ∨ isinstance spec' py_dict = false)
            ∧ (spec' = YDict entries →
               spec = YDict entries ∨ (truthy spec = false ∧ entries = ∅)))
    as (entries & Hcase & Hspec).
  { unfold spec'. destruct (truthy spec) eqn:Htruthy.
    - destruct spec as [| | | | |d];
        try (exists ∅; split; [by right|done]).
      exists d. split; [by left|]. intros _. by left.
    - exists ∅. split; [by left|]. intros _. by right. }
  destruct Hcase as [Hdict|Hnot];
    [|unfold _expect; rewrite Hnot; by destruct spec'].
  specialize (Hspec Hdict). rewrite Hdict. unfold _expect. simpl.
  intros Hitems.
  assert (NoDup (ServiceSet.name <$> gs)) as Hnd.
  { rewrite (load_items_names _ _ _ Hitems). apply NoDup_fst_map_to_list. }
  apply load_items_Loaded in Hitems.
  split_and!.
  - done.
  - intros g. split; [by apply dict_by_NoDup_lookup|].
    by intros [_ ?]%dict_by_lookup_key.
  - exists entries. split; [done|]. intros g.
    rewrite <-elem_of_map_to_list. split.
    + intros [i Hi]%list_elem_of_lookup.
      destruct (Forall2_lookup_r _ _ _ _ _ Hitems Hi)
        as ([n v] & Hn & Hv & Hname).
      simpl in *. subst. by eapply list_elem_of_lookup_2.
    + intros [i Hi]%list_elem_of_lookup.
      destruct (Forall2_lookup_l _ _ _ _ _ Hitems Hi)
        as (g' & Hg' & Hv & Hname).
      simpl in *. apply list_elem_of_lookup_2 in Hg'.
      assert (g' = g) as <-; [|done].
      destruct g, g'. simpl in *.
      injection Hv as Hsels. apply (inj (fmap YStr)) in Hsels. congruence.
Qed.

Lemma X10_witness :
  ServiceSet_load_multiple YNone "adsroot.yml" = Loaded []
  ∧ ServiceSet_load_multiple (YList [YStr "api"]) "adsroot.yml"
    = ParseProjectException "adsroot.yml" py_dict (YList [YStr "api"])
  ∧ NoDup (ServiceSet.name <$> [ServiceSet.mk "web_stack" ["api"; "web"]])
  ∧ (ServiceSet.mk "web_stack" ["api"; "web"]
     ∈ [ServiceSet.mk "web_stack" ["api"; "web"]]
     ↔ dict_by ServiceSet.name [ServiceSet.mk "web_stack" ["api"; "web"]]
         !! "web_stack"
       = Some (ServiceSet.mk "web_stack" ["api"; "web"])).
Proof.
  split_and!.
  - apply (X10_ServiceSet_load_multiple YNone "adsroot.yml"). reflexivity.
  - apply (X10_ServiceSet_load_multiple (YList [YStr "api"]) "adsroot.yml");
      reflexivity.
  - apply (proj2 (proj2 (X10_ServiceSet_load_multiple
             (YDict {[ "web_stack" := YList [YStr "api"; YStr "web"] ]})
             "adsroot.yml")) [ServiceSet.mk "web_stack" ["api"; "web"]]).
    vm_compute. reflexivity.
  - destruct (proj2 (proj2 (X10_ServiceSet_load_multiple
              (YDict {[ "web_stack" := YList [YStr "api"; YStr "web"] ]})
              "adsroot.yml")) [ServiceSet.mk "web_stack" ["api"; "web"]])
      as (_ & Hlookup & _).
    + vm_compute. reflexivity.
    + apply (Hlookup (ServiceSet.mk "web_stack" ["api"; "web"])).
Defined.

(** X11. [ServiceSet.load_default] returns [None] for every falsy document
    and the string itself for a non-empty [str]; everything else is
    refused.  So the default it returns is never the empty string, and with
    the fallback [or "all"] of [Project.load_from_files] a loaded project
    never has an empty default selector. *)
Theorem X11_ServiceSet_load_default (spec : yaml) (origin_file : string) :
  (ServiceSet_load_default spec origin_file = Loaded None
   ↔ truthy spec = false)
  ∧ (∀ s, ServiceSet_load_default spec origin_file = Loaded (Some s)
          ↔ spec = YStr s ∧ s ≠ "")
  ∧ (∀ d, ServiceSet_load_default spec origin_file = Loaded d →
          py_or d "all" ≠ "")
  ∧ (truthy spec = true → isinstance spec py_str = false →
     ServiceSet_load_default spec origin_file
     = ParseProjectException origin_file py_str spec).
Proof.
  assert (∀ s, ServiceSet_load_default spec origin_file = Loaded (Some s)
               ↔ spec = YStr s ∧ s ≠ "") as Hsome.
  { intros s. unfold ServiceSet_load_default, _expect.
    destruct spec as [|b|n|s'|l|d]; simpl;
      try (split; [by repeat case_match|by intros [? ?]]).
    case_bool_decide as Hs; simpl.
    - split; [by intros [= <-]|by intros [[= <-] _]].
    - split; [done|]. intros [[= <-] ?]. done. }
  split_and!.
  - unfold ServiceSet_load_default, _expect.
    destruct (truthy spec) eqn:Htruthy; simpl; [|done].
    split; [|done]. by destruct spec.
  - exact Hsome.
  - intros [s|] Hd; [|done]. apply Hsome in Hd as [_ Hs].
    simpl. by rewrite bool_decide_eq_false_2.
  - intros Htruthy Hstr. unfold ServiceSet_load_default, _expect.
    rewrite Htruthy, Hstr. simpl. by destruct spec.
Qed.

Lemma X11_witness :
  ServiceSet_load_default (YStr "") "adsroot.yml" = Loaded None
  ∧ ServiceSet_load_default (YStr "backend") "adsroot.yml"
    = Loaded (Some "backend")
  ∧ ServiceSet_load_default (YList [YStr "backend"]) "adsroot.yml"
    = ParseProjectException "adsroot.yml" py_str (YList [YStr "backend"]).
Proof.
  split_and!.
  - apply (proj1 (X11_ServiceSet_load_default (YStr "") "adsroot.yml")).
    reflexivity.
  - apply (proj1 (proj2 (X11_ServiceSet_load_default (YStr "backend")
                           "adsroot.yml")) "backend").
    split; [reflexivity|discriminate].
  - apply (X11_ServiceSet_load_default (YList [YStr "backend"])
             "adsroot.yml"); reflexivity.
Defined.

(** ** Filing the services of a project *)

(** X12. [Project.__init__] files the services by name: the keys of
    [services_by_name] are the names of the services given and what is
    filed under a key is one of them, with that name; when the names are
    pairwise distinct every service given is found under its name and
    there are as many entries as services, and when two services share a
    name the later one is the one that is kept. *)
Theorem X12_Project_init_services (name home : string)
    (services : list Service.t) (sets : option (list ServiceSet.t))
    (dflt : string) :
  let p := Project.init name home (Some services) sets dflt in
  dom (Project.services_by_name p) = list_to_set (Service.name <$> services)
  ∧ (∀ k s, Project.services_by_name p !! k = Some s →
            Service.name s = k ∧ s ∈ services)
  ∧ (NoDup (Service.name <$> services) →
     (∀ s, s ∈ services →
           Project.services_by_name p !! Service.name s = Some s)
     ∧ size (Project.services_by_name p) = length services)
  ∧ (∀ before s after,
       services = before ++ s :: after →
       Service.name s ∉ Service.name <$> after →
       Project.services_by_name p !! Service.name s = Some s).
Proof.
  intros p. split_and!.
  - apply dict_by_dom.
  - intros k s. apply dict_by_lookup_key.
  - intros Hnd. split; [intros s; by apply dict_by_NoDup_lookup|].
    rewrite <-size_dom. unfold p. simpl. rewrite dict_by_dom.
    by rewrite size_list_to_set, length_fmap.
  - intros before s after -> Hafter. unfold p. simpl.
    rewrite dict_by_app_lookup.
    change (s :: after) with ([s] ++ after).
    rewrite dict_by_app_lookup, (dict_by_lookup_None _ after) by done.
    unfold dict_by. simpl. by rewrite lookup_insert_eq.
Qed.

Lemma X12_witness :
  Project.services_by_name
    (Project.init "demo" "/srv/demo"
       (Some [example_service "api"; example_service "db";
              Service.init "api" "/srv/other/api" None None None None None None])
       None "all")
    !! "api"
  = Some (Service.init "api" "/srv/other/api" None None None None None None).
Proof.
  apply (proj2 (proj2 (proj2 (X12_Project_init_services "demo" "/srv/demo"
           [example_service "api"; example_service "db";
            Service.init "api" "/srv/other/api" None None None None None None]
           None "all")))
         [example_service "api"; example_service "db"]
         (Service.init "api" "/srv/other/api" None None None None None None)
         []).
  - reflexivity.
  - apply not_elem_of_nil.
Defined.

(** ** Printing a listing *)

Lemma all_keys_nil (self : Treelisting.t) :
  self ≫= (λ s, (map_to_list s.1.2).*1) = [] ↔ Forall (λ s, s.1.2 = ∅) self.
Proof.
  induction self as [|s self IH]; [by split|].
  change ((s :: self) ≫= (λ s, (map_to_list s.1.2).*1))
    with ((map_to_list s.1.2).*1 ++ (self ≫= (λ s, (map_to_list s.1.2).*1))).
  rewrite app_nil, IH, Forall_cons, <-map_to_list_empty_iff.
  split; intros [Hs ?]; (split; [|done]).
  - by apply fmap_nil_inv in Hs.
  - by rewrite Hs.
Qed.

Lemma print_sections_lines width (l : list Treelisting.section) lines :
  Treelisting.print_sections width l = Return lines →
  length lines = length l + length (l ≫= (λ s, (map_to_list s.1.2).*1))
  ∧ ∀ s k v, s ∈ l → s.1.2 !! k = Some v →
             Treelisting.format_entry width k v ∈ lines.
Proof.
  revert lines. induction l as [|s l IH]; intros lines;
    cbn [Treelisting.print_sections].
  - intros [= <-]. split; [done|]. by intros s k v ?%elem_of_nil.
  - destruct (Treelisting.heading_line s) as [hd|e]; [|done].
    destruct (Treelisting.print_sections width l) as [rest|e]; [|done].
    intros [= <-]. destruct (IH rest eq_refl) as [Hlen Hin]. split.
    + rewrite bind_cons. cbn [length].
      rewrite !length_app, !length_fmap, Hlen. lia.
    + intros s' k v [->|Hs']%elem_of_cons Hk.
      * right. apply elem_of_app. left.
        apply elem_of_map_to_list in Hk.
        by apply (list_elem_of_fmap_2 (λ kv, Treelisting.format_entry width kv.1 kv.2)
                    _ (k, v)).
      * right. apply elem_of_app. right. by eapply Hin.
Qed.

(** X13. [pretty_print] prints nothing at all, no heading and no message
    for an empty listing, exactly when every section of the listing has an
    empty dict. *)
Theorem X13_pretty_print_nothing (self : Treelisting.t) :
  Treelisting.pretty_print self = Return []
  ↔ Forall (λ s, s.1.2 = ∅) self.
Proof.
  unfold Treelisting.pretty_print. cbv zeta.
  case_bool_decide as Hkeys.
  - by rewrite <-all_keys_nil.
  - rewrite <-all_keys_nil. split; [|done].
    intros [Hlen _]%print_sections_lines. simpl in Hlen.
    destruct self; [done|]. simpl in Hlen. lia.
Qed.

Lemma string_length_app (s1 s2 : string) :
  String.length (s1 +:+ s2) = String.length s1 + String.length s2.
Proof. induction s1 as [|c s1 IH]; simpl; [done|]. by f_equal. Qed.

Lemma spaces_length n : String.length (Treelisting.spaces n) = n.
Proof. induction n as [|n IH]; simpl; [done|]. by f_equal. Qed.

(** X14. When [pretty_print] returns, it has printed one heading for each
    section and one line for each entry, and the line of an entry is its
    key, its value after ": ", and in front as many blanks as make every
    key end in the same column, one past the length of the longest key
    of the whole listing. *)
Theorem X14_pretty_print_columns (self : Treelisting.t) (lines : list string) :
  Treelisting.pretty_print self = Return lines →
  let all_keys := self ≫= (λ s, (map_to_list s.1.2).*1) in
  let width := S (max_list (String.length <$> all_keys)) in
  (all_keys ≠ [] → length lines = length self + length all_keys)
  ∧ ∀ s k v, s ∈ self → s.1.2 !! k = Some v →
      ∃ n, Treelisting.spaces n +:+ k +:+ ": " +:+ v ∈ lines
           ∧ String.length (Treelisting.spaces n +:+ k) = width.
Proof.
  unfold Treelisting.pretty_print. cbv zeta.
  set (all_keys := self ≫= (λ s, (map_to_list s.1.2).*1)).
  set (width := S (max_list (String.length <$> all_keys))).
  intros Hprint.
  assert (∀ s k v, s ∈ self → s.1.2 !! k = Some v → k ∈ all_keys) as Hkeys.
  { intros s k v Hs Hk. apply list_elem_of_bind. exists s. split; [|done].
    apply elem_of_map_to_list in Hk.
    by apply (list_elem_of_fmap_2 fst _ (k, v)). }
  case_bool_decide as Hnil.
  - split; [done|]. intros s k v Hs Hk.
    apply (Hkeys s k v Hs) in Hk. rewrite Hnil in Hk.
    by apply elem_of_nil in Hk.
  - apply print_sections_lines in Hprint as [Hlen Hin].
    split; [done|]. intros s k v Hs Hk.
    exists (width - String.length k). split; [by eapply Hin|].
    rewrite string_length_app, spaces_length.
    assert (String.length k ≤ max_list (String.length <$> all_keys))%nat.
    { apply max_list_elem_of_le, list_elem_of_fmap_2. by eapply Hkeys. }
    unfold width. lia.
Qed.

Lemma X14_witness :
  ∃ n, Treelisting.spaces n +:+ "db" +:+ ": " +:+ "database" ∈
         [String (Ascii.ascii_of_nat 10) "Services:";
          " web: site"; "  db: database";
          String (Ascii.ascii_of_nat 10)
            ("Groups:" +:+ String (Ascii.ascii_of_nat 10) " None")]
       ∧ String.length (Treelisting.spaces n +:+ "db") = 4.
Proof.
  assert (Treelisting.pretty_print
            [("Services:",
              ({[ "db" := "database"; "web" := "site" ]} : gmap string string),
              None);
             ("Groups:", ∅, Some "None")]
          = Return
              [String (Ascii.ascii_of_nat 10) "Services:";
               " web: site"; "  db: database";
               String (Ascii.ascii_of_nat 10)
                 ("Groups:" +:+ String (Ascii.ascii_of_nat 10) " None")])
    as Hprint by (vm_compute; reflexivity).
  apply (proj2 (X14_pretty_print_columns _ _ Hprint)
           ("Services:",
            ({[ "db" := "database"; "web" := "site" ]} : gmap string string),
            None)
           "db" "database").
  - left.
  - reflexivity.
Defined.

(** ** The dicts of the listing *)





(** ** What [Ads.list] shows as the default, and when it fails *)




(** X17. When the default selector is the name of a service (not empty and
    not "all") of a project whose services are filed under their own names,
    the default section of the listing shows that service's description,
    or "(No description)", and not its name. *)
Theorem X17_default_service_description (h : Heap) (svc : Service.t) :
  let sel := py_or (Profile.default_selector (profile h))
                   (Project.default_selector (project h)) in
  filed_by_name (project h) →
  sel ≠ "" → sel ≠ "all" →
  Project.services_by_name (project h) !! sel = Some svc →
  (Ads_default_section h).1
  = Return {[ sel := Service.get_description_or_default svc ]}.
Proof.
  intros sel Hfiled Hne Hall Hsvc.
  assert ((Ads_resolve sel h).1 = Return {[ sel ]}) as Hres.
  { rewrite Ads_resolve_unfold. fold sel.
    assert ((if bool_decide (sel = "default") then sel else sel) = sel)
      as -> by (by case_bool_decide).
    rewrite (ServiceSet_resolve_service _ _ _ svc) by done.
    by rewrite (Hfiled _ _ Hsvc). }
  pose proof (Ads_resolve_same_objects sel h) as [Hp _].
  unfold Ads_default_section, Ads_get_default_selector,
    except_BadSelectorException, services_getitem.
  unfold_M. fold sel.
  destruct (Ads_resolve sel h) as [[names|e] h'] eqn:Hr; simpl in *; [|done].
  injection Hres as ->. rewrite elements_singleton. simpl.
  rewrite bool_decide_eq_true_2 by done. by rewrite Hp, Hsvc.
Qed.

Lemma X17_witness :
  (Ads_default_section
     (mkHeap (Project.init "demo" "/srv/demo"
                (Some [Service.init "api" "/srv/demo/api" (Some "the API")
                         None None None None None])
                None "api")
        (Profile.init None None) [])).1
  = Return {[ "api" := "the API" ]}.
Proof.
  apply (X17_default_service_description
           (mkHeap (Project.init "demo" "/srv/demo"
                      (Some [Service.init "api" "/srv/demo/api"
                               (Some "the API") None None None None None])
                      None "api")
              (Profile.init None None) [])
           (Service.init "api" "/srv/demo/api" (Some "the API")
              None None None None None)).
  - apply Project_init_filed_by_name.
  - discriminate.
  - discriminate.
  - reflexivity.
Defined.

(** ** The root manifest *)

Lemma _find_project_yml_spec depth join dirname isfile start :
  (∀ p, dirname p ≠ p → String.length (dirname p) < String.length p) →
  String.length start < depth →
  match _find_project_yml depth join dirname isfile start with
  | Return (Some yml) =>
      ∃ n, yml = join (Nat.iter n dirname start) "adsroot.yml"
           ∧ isfile yml = true
           ∧ ∀ m, m < n →
                  isfile (join (Nat.iter m dirname start) "adsroot.yml")
                  = false
  | Return None =>
      ∀ n, isfile (join (Nat.iter n dirname start) "adsroot.yml") = false
  | Raise _ => False
  end.
Proof.
  intros Hshorter. revert start.
  induction depth as [|depth IH]; intros start Hdepth; [lia|].
  simpl. destruct (isfile (join start "adsroot.yml")) eqn:Hfile.
  { exists 0. split_and!; [done..|]. intros m Hm. lia. }
  case_bool_decide as Hparent.
  - intros n. assert (Nat.iter n dirname start = start) as ->; [|done].
    induction n as [|n IHn]; simpl; [done|]. by rewrite IHn.
  - specialize (IH (dirname start)).
    assert (String.length (dirname start) < depth) as Hlt
      by (specialize (Hshorter _ Hparent); lia).
    specialize (IH Hlt).
    destruct (_find_project_yml depth join dirname isfile (dirname start))
      as [[yml|]|e]; [| |done].
    + destruct IH as (n & -> & Hyml & Hcloser).
      exists (S n). rewrite Nat.iter_succ_r. split_and!; [done..|].
      intros [|m] Hm; [done|]. rewrite Nat.iter_succ_r. apply Hcloser. lia.
    + intros [|n]; [done|]. rewrite Nat.iter_succ_r. apply IH.
Qed.

Lemma up_to_last_slash_length p :
  (String.length (up_to_last_slash p) ≤ String.length p)%nat
  ∧ (String.length (up_to_last_slash p) = String.length p →
     up_to_last_slash p = p).
Proof.
  induction p as [|c p [IHle IHeq]]; [done|]. simpl.
  destruct (has_slash p); simpl.
  - split; [lia|]. intros [= Hlen]. by rewrite IHeq.
  - destruct (is_slash c); simpl; (split; [lia|]).
    + destruct p; [done|]. simpl. lia.
    + lia.
Qed.

Lemma rstrip_slashes_length p :
  (String.length (rstrip_slashes p) ≤ String.length p)%nat
  ∧ (String.length (rstrip_slashes p) = String.length p →
     rstrip_slashes p = p).
Proof.
  induction p as [|c p [IHle IHeq]]; [done|]. simpl.
  destruct (all_slashes p) eqn:Hall; simpl.
  - destruct (is_slash c); simpl; (split; [lia|]).
    + lia.
    + destruct p; [done|]. simpl. lia.
  - split; [lia|]. intros [= Hlen]. by rewrite IHeq.
Qed.

Lemma posix_dirname_shorter p :
  posix_dirname p ≠ p →
  String.length (posix_dirname p) < String.length p.
Proof.
  unfold posix_dirname. intros Hne.
  destruct (up_to_last_slash_length p) as [Hle Heq].
  destruct (rstrip_slashes_length (up_to_last_slash p)) as [Hle' Heq'].
  destruct (all_slashes (up_to_last_slash p)).
  - destruct (decide (String.length (up_to_last_slash p) = String.length p))
      as [Hlen|Hlen]; [|lia].
    by apply Heq in Hlen.
  - destruct (decide (String.length (rstrip_slashes (up_to_last_slash p))
                      = String.length p)) as [Hlen|Hlen]; [|lia].
    assert (String.length (up_to_last_slash p) = String.length p) as Hlen1
      by lia.
    rewrite Hlen1 in Heq'. specialize (Heq' Hlen). specialize (Heq Hlen1).
    congruence.
Qed.

(** X18. With a [dirname] that shortens every path it changes, as that of
    POSIX does, and more depth than the start path is long,
    [_find_project_yml] ends: it returns the [adsroot.yml] of the nearest
    directory that has one, among the start directory and its successive
    parents, and that is a file; and it returns [None] only when none of
    them has one. *)
Theorem X18_find_project_yml (depth : nat) (join : string → string → string)
    (dirname : string → string) (isfile : string → bool) (start : string) :
  (∀ p, dirname p ≠ p → String.length (dirname p) < String.length p) →
  String.length start < depth →
  (∃ n, _find_project_yml depth join dirname isfile start
        = Return (Some (join (Nat.iter n dirname start) "adsroot.yml"))
        ∧ isfile (join (Nat.iter n dirname start) "adsroot.yml") = true
        ∧ ∀ m, m < n →
               isfile (join (Nat.iter m dirname start) "adsroot.yml") = false)
  ∨ (_find_project_yml depth join dirname isfile start = Return None
     ∧ ∀ n, isfile (join (Nat.iter n dirname start) "adsroot.yml") = false).
Proof.
  intros Hshorter Hdepth.
  pose proof (_find_project_yml_spec depth join dirname isfile start
                Hshorter Hdepth) as Hspec.
  destruct (_find_project_yml depth join dirname isfile start)
    as [[yml|]|e]; [| |done].
  - left. destruct Hspec as (n & -> & Hfile & Hcloser). by exists n.
  - by right.
Qed.

Lemma X18_witness :
  (∃ n, _find_project_yml 20 posix_join posix_dirname
          (λ p, bool_decide (p = "/home/me/adsroot.yml")) "/home/me/proj/svc"
        = Return (Some (posix_join
                          (Nat.iter n posix_dirname "/home/me/proj/svc")
                          "adsroot.yml"))
        ∧ bool_decide
            (posix_join (Nat.iter n posix_dirname "/home/me/proj/svc")
               "adsroot.yml" = "/home/me/adsroot.yml") = true
        ∧ ∀ m, m < n →
               bool_decide
                 (posix_join (Nat.iter m posix_dirname "/home/me/proj/svc")
                    "adsroot.yml" = "/home/me/adsroot.yml") = false)
  ∨ (_find_project_yml 20 posix_join posix_dirname
       (λ p, bool_decide (p = "/home/me/adsroot.yml")) "/home/me/proj/svc"
     = Return None
     ∧ ∀ n, bool_decide
              (posix_join (Nat.iter n posix_dirname "/home/me/proj/svc")
                 "adsroot.yml" = "/home/me/adsroot.yml") = false).
Proof.
  apply (X18_find_project_yml 20 posix_join posix_dirname
           (λ p, bool_decide (p = "/home/me/adsroot.yml"))
           "/home/me/proj/svc").
  - apply posix_dirname_shorter.
  - vm_compute. lia.
Defined.

(** ** The names of the services *)

Lemma adsfiles_loop_Returned service_name adsfiles
    (names files : gmap string string) :
  NoDup (service_name <$> adsfiles) →
  (∀ f, f ∈ adsfiles → service_name f ∉ dom names) →
  ∃ m, adsfiles_loop service_name adsfiles names files = Returned m
       ∧ (∀ f, f ∈ adsfiles → m !! f = Some (service_name f))
       ∧ (∀ f, f ∉ adsfiles → m !! f = files !! f).
Proof.
  revert names files.
  induction adsfiles as [|f adsfiles IH]; intros names files Hnd Hfresh.
  - exists files. split_and!; [done| |done]. by intros f ?%elem_of_nil.
  - rewrite fmap_cons in Hnd. apply NoDup_cons in Hnd as [Hf Hnd]. simpl.
    rewrite bool_decide_eq_false_2 by (apply Hfresh; left).
    destruct (IH (<[service_name f := f]> names)
                 (<[f := service_name f]> files) Hnd)
      as (m & -> & Hin & Hout).
    { intros f' Hf'. rewrite dom_insert_L, not_elem_of_union.
      split; [|apply Hfresh; by right].
      rewrite elem_of_singleton. intros Heq. apply Hf. rewrite <-Heq.
      by apply list_elem_of_fmap_2. }
    exists m. split_and!; [done| |].
    + intros f' [->|Hf']%elem_of_cons; [|by apply Hin].
      destruct (decide (f ∈ adsfiles)) as [Hdup|Hfirst]; [by apply Hin|].
      by rewrite Hout, lookup_insert_eq.
    + intros f' [Hne Hf']%not_elem_of_cons.
      by rewrite Hout, lookup_insert_ne.
Qed.

Lemma adsfiles_loop_Exception service_name adsfiles
    (names files : gmap string string) :
  ¬ (NoDup (service_name <$> adsfiles)
     ∧ ∀ f, f ∈ adsfiles → service_name f ∉ dom names) →
  adsfiles_loop service_name adsfiles names files
  = Exception "not yet implemented".
Proof.
  revert names files.
  induction adsfiles as [|f adsfiles IH]; intros names files Hbad.
  - destruct Hbad. split; [constructor|]. by intros f ?%elem_of_nil.
  - simpl. case_bool_decide as Hf; [done|]. apply IH.
    intros [Hnd Hfresh]. apply Hbad. split.
    + rewrite fmap_cons. apply NoDup_cons. split; [|done].
      intros (f' & Heq & Hf')%list_elem_of_fmap.
      apply (Hfresh f' Hf'). rewrite dom_insert_L, <-Heq. set_solver.
    + intros f' [->|Hf']%elem_of_cons; [done|].
      specialize (Hfresh f' Hf'). rewrite dom_insert_L in Hfresh. set_solver.
Qed.

(** X19. [_adsfiles_to_service_names] names a service after the directory
    of its manifest.  When these names are pairwise distinct it returns the
    mapping of every manifest given, and of nothing else, to its name, and
    no two manifests have the same name in it; when two manifests (or the
    same one listed twice) give the same name it raises the exception
    "not yet implemented". *)
Theorem X19_adsfiles_to_service_names (basename dirname : string → string)
    (adsfiles : list string) :
  (NoDup ((λ f, basename (dirname f)) <$> adsfiles) →
   ∃ m, _adsfiles_to_service_names basename dirname adsfiles = Returned m
        ∧ dom m = list_to_set adsfiles
        ∧ (∀ f, f ∈ adsfiles → m !! f = Some (basename (dirname f)))
        ∧ (∀ f f' n, m !! f = Some n → m !! f' = Some n → f = f'))
  ∧ (¬ NoDup ((λ f, basename (dirname f)) <$> adsfiles) →
     _adsfiles_to_service_names basename dirname adsfiles
     = Exception "not yet implemented").
Proof.
  unfold _adsfiles_to_service_names. split.
  - intros Hnd.
    destruct (adsfiles_loop_Returned (λ f, basename (dirname f)) adsfiles
                ∅ ∅ Hnd) as (m & Hm & Hin & Hout); [set_solver|].
    exists m. split_and!; [done| |done|].
    + apply set_eq. intros f. rewrite elem_of_dom, elem_of_list_to_set.
      destruct (decide (f ∈ adsfiles)) as [Hf|Hf].
      * rewrite (Hin f Hf). split; [done|by eexists].
      * rewrite (Hout f Hf), lookup_empty. split; [by intros [? ?]|done].
    + assert (∀ f n, m !! f = Some n →
                     f ∈ adsfiles ∧ n = basename (dirname f)) as Hinv.
      { intros f n Hf. destruct (decide (f ∈ adsfiles)) as [Hfin|Hfout].
        - rewrite (Hin f Hfin) in Hf. by injection Hf as <-.
        - by rewrite (Hout f Hfout), lookup_empty in Hf. }
      intros f f' n [Hf ->]%Hinv [Hf' Heq]%Hinv.
      apply list_elem_of_lookup in Hf as [i Hi], Hf' as [j Hj].
      assert (i = j) as ->; [|congruence].
      eapply (NoDup_lookup _ _ _ (basename (dirname f))); [exact Hnd|..].
      * by rewrite list_lookup_fmap, Hi.
      * by rewrite list_lookup_fmap, Hj, Heq.
  - intros Hdup. apply adsfiles_loop_Exception. by intros [? _].
Qed.

Lemma X19_witness :
  (∃ m, _adsfiles_to_service_names posix_basename posix_dirname
          ["/srv/demo/api/ads.yml"; "/srv/demo/db/ads.yml"] = Returned m
        ∧ dom m = list_to_set ["/srv/demo/api/ads.yml"; "/srv/demo/db/ads.yml"]
        ∧ (∀ f, f ∈ ["/srv/demo/api/ads.yml"; "/srv/demo/db/ads.yml"] →
                m !! f = Some (posix_basename (posix_dirname f)))
        ∧ (∀ f f' n, m !! f = Some n → m !! f' = Some n → f = f'))
  ∧ _adsfiles_to_service_names posix_basename posix_dirname
      ["/srv/demo/api/ads.yml"; "/srv/demo/tools/api/ads.yml"]
    = Exception "not yet implemented".
Proof.
  split.
  - apply (proj1 (X19_adsfiles_to_service_names posix_basename posix_dirname
                    ["/srv/demo/api/ads.yml"; "/srv/demo/db/ads.yml"])).
    vm_compute. repeat constructor; set_solver.
  - apply (proj2 (X19_adsfiles_to_service_names posix_basename posix_dirname
                    ["/srv/demo/api/ads.yml"; "/srv/demo/tools/api/ads.yml"])).
    vm_compute. intros Hnd. apply NoDup_cons in Hnd as [Hnot _].
    apply Hnot. left.
Defined.

(** ** The manifests of the services *)

Lemma string_prefix_app (d rest : string) : String.prefix d (d +:+ rest) = true.
Proof.
  induction d as [|c d IH]; simpl; [by destruct rest|].
  destruct (Ascii.ascii_dec c c); [done|congruence].
Qed.

(** X20. [_find_service_ymls] returns, joined to the project root and in
    the order of the output of [find], the entries named ads.yml that do
    not begin with the directory of an entry named adsroot.yml; all of the
    ads.yml entries when there is no adsroot.yml entry.  The test is one on
    strings: an entry that continues the directory of a nested project in
    any way, be it a sibling directory of a longer name, is left out. *)
Theorem X20_find_service_ymls (join : string → string → string)
    (dirname basename : string → string)
    (find_output : list string) (project_root : string) :
  ∃ kept,
    _find_service_ymls join dirname basename find_output project_root
    = join project_root <$> kept
    ∧ kept `sublist_of` find_output
    ∧ (∀ p, p ∈ kept ↔
            p ∈ find_output ∧ basename p = "ads.yml"
            ∧ ∀ q, q ∈ find_output → basename q = "adsroot.yml" →
                   startswith p (dirname q) = false)
    ∧ (∀ q rest, q ∈ find_output → basename q = "adsroot.yml" →
                 dirname q +:+ rest ∉ kept)
    ∧ ((∀ q, q ∈ find_output → basename q ≠ "adsroot.yml") →
       kept = filter (λ p, basename p = "ads.yml") find_output).
Proof.
  unfold _find_service_ymls. cbv zeta.
  set (dirs := dirname <$> filter (λ path, basename path = "adsroot.yml")
                             find_output).
  set (kept := filter _ find_output).
  assert (∀ p, existsb (λ dir_path, startswith p dir_path) dirs = false
               ↔ ∀ q, q ∈ find_output → basename q = "adsroot.yml" →
                      startswith p (dirname q) = false) as Hdirs.
  { intros p. unfold dirs. split.
    - intros Hex q Hq Hroot.
      destruct (startswith p (dirname q)) eqn:Hstart; [|done].
      rewrite <-Hex. symmetry. apply existsb_exists. exists (dirname q).
      split; [|done]. apply list_elem_of_In, list_elem_of_fmap_2.
      by apply list_elem_of_filter.
    - intros Hall. apply not_true_is_false.
      intros (d & Hd%list_elem_of_In & Hstart)%existsb_exists.
      apply list_elem_of_fmap in Hd as (q & -> & [Hroot Hq]%list_elem_of_filter).
      by rewrite Hall in Hstart. }
  assert (∀ p, p ∈ kept ↔
               p ∈ find_output ∧ basename p = "ads.yml"
               ∧ ∀ q, q ∈ find_output → basename q = "adsroot.yml" →
                      startswith p (dirname q) = false) as Hkept.
  { intros p. unfold kept. rewrite list_elem_of_filter, Hdirs. naive_solver. }
  exists kept. split_and!.
  - done.
  - apply sublist_filter.
  - exact Hkept.
  - intros q rest Hq Hroot [_ [_ Hno]]%Hkept.
    specialize (Hno q Hq Hroot). unfold startswith in Hno.
    by rewrite string_prefix_app in Hno.
  - intros Hnone. unfold kept. apply list_filter_iff. intros p.
    split; [by intros [? _]|]. intros Hp. split; [done|].
    apply Hdirs. intros q Hq Hroot. by destruct (Hnone q Hq).
Qed.

Lemma X13_witness :
  Treelisting.pretty_print
    [("Groups defined in current project:", ∅,
      Some "None (add 'groups' to adsroot.yml)")]
  = Return [].
Proof.
  apply (proj2 (X13_pretty_print_nothing
                  [("Groups defined in current project:", ∅,
                    Some "None (add 'groups' to adsroot.yml)")])).
  repeat constructor.
Defined.

Lemma X20_witness :
  ∃ kept,
    _find_service_ymls posix_join posix_dirname posix_basename
      ["./api/ads.yml"; "./sub/adsroot.yml"; "./sub/x/ads.yml";
       "./subway/ads.yml"] "/srv/demo"
    = posix_join "/srv/demo" <$> kept
    ∧ "./sub" +:+ "way/ads.yml" ∉ kept.
Proof.
  destruct (X20_find_service_ymls posix_join posix_dirname posix_basename
              ["./api/ads.yml"; "./sub/adsroot.yml"; "./sub/x/ads.yml";
               "./subway/ads.yml"] "/srv/demo")
    as (kept & Heq & _ & _ & Hnested & _).
  exists kept. split; [exact Heq|].
  apply (Hnested "./sub/adsroot.yml" "way/ads.yml").
  - set_solver.
  - reflexivity.
Defined.

(** ** A default selector that does not resolve, in the listing *)

(** X21. When the resolution of the default selector fails with a
    [BadSelectorException] and the default selector is not the string
    "(Unresolved)" itself, [Ads.list] returns, and among the lines it
    prints is the one of the default selector, with "(Unresolved)" for its
    description. *)
Theorem X21_list_shows_unresolved (h : Heap) (msg : string) :
  let sel := py_or (Profile.default_selector (profile h))
                   (Project.default_selector (project h)) in
  (Ads_resolve sel h).1 = Raise (BadSelectorException msg) →
  sel ≠ "(Unresolved)" →
  ∃ lines n,
    (Ads_list h).1 = Return lines
    ∧ Treelisting.spaces n +:+ sel +:+ ": " +:+ "(Unresolved)" ∈ lines.
Proof.
  intros sel Hres Hne.
  pose proof (Ads_default_section_unresolved h msg Hres Hne) as Hsec.
  fold sel in Hsec. unfold Ads_list. unfold_M. rewrite Hsec.
  unfold Treelisting.pretty_print. cbv zeta.
  set (listing := Treelisting.with_section _ _ _ _).
  assert (("Default service for commands if none are specified:",
           ({[ sel := "(Unresolved)" ]} : gmap string string), None)
          ∈ listing) as Hlast.
  { unfold listing, Treelisting.with_section. set_solver. }
  case_bool_decide as Hkeys.
  { apply all_keys_nil in Hkeys. rewrite Forall_forall in Hkeys.
    apply Hkeys in Hlast. simpl in Hlast.
    by destruct (map_non_empty_singleton sel "(Unresolved)"). }
  set (width := S _).
  edestruct (print_sections_Return width listing) as [lines Hlines].
  { unfold listing, Treelisting.with_section. simpl.
    repeat apply Forall_cons_2; try apply Forall_nil_2; simpl;
      [right; by eexists..|left].
    apply insert_non_empty. }
  exists lines, (width - String.length sel). rewrite Hlines.
  split; [done|].
  apply print_sections_lines in Hlines as [_ Hin].
  apply (Hin _ sel "(Unresolved)" Hlast). simpl. apply lookup_insert_eq.
Qed.

Lemma X21_witness :
  ∃ lines n,
    (Ads_list (mkHeap (Project.init "demo" "/srv/demo" None
                         (Some cycle_groups) "a")
                 (Profile.init None None) [])).1
    = Return lines
    ∧ Treelisting.spaces n +:+ "a" +:+ ": " +:+ "(Unresolved)" ∈ lines.
Proof.
  apply (X21_list_shows_unresolved
           (mkHeap (Project.init "demo" "/srv/demo" None
                      (Some cycle_groups) "a")
              (Profile.init None None) [])
           "Definition of selector 'a' is circular: a -> b -> a").
  - vm_compute. reflexivity.
  - discriminate.
Defined.

(** ** The first selector that fails *)

Lemma mapM_Ads_resolve_first_failure pre s post h e :
  Forall (λ x, ∃ r, (Ads_resolve x h).1 = Return r) pre →
  (Ads_resolve s h).1 = Raise e →
  (mapM Ads_resolve (pre ++ s :: post) h).1 = Raise e.
Proof.
  intros Hpre. revert h Hpre.
  induction pre as [|x pre IH]; intros h Hpre Hs.
  - simpl app. rewrite mapM_cons.
    destruct (Ads_resolve s h) as [[r|e'] h0]; simpl in Hs; [done|].
    by injection Hs as ->.
  - apply Forall_cons in Hpre as [[r Hx] Hpre].
    change ((x :: pre) ++ s :: post) with (x :: (pre ++ s :: post)).
    rewrite mapM_cons.
    pose proof (Ads_resolve_same_objects x h) as Hsame.
    destruct (Ads_resolve x h) as [[r'|e'] h0]; simpl in Hx; [|done].
    simpl in Hsame.
    specialize (IH h0). destruct (mapM Ads_resolve (pre ++ s :: post) h0)
      as [[rs|e'] h1]; simpl in *.
    + exfalso. assert (Return rs = Raise e) as Habs; [|done].
      apply IH.
      * eapply Forall_impl; [exact Hpre|]. intros y [ry Hy].
        exists ry. by rewrite (Ads_resolve_fresh_stack y h h0).
      * by rewrite (Ads_resolve_fresh_stack s h h0).
    + apply IH.
      * eapply Forall_impl; [exact Hpre|]. intros y [ry Hy].
        exists ry. by rewrite (Ads_resolve_fresh_stack y h h0).
      * by rewrite (Ads_resolve_fresh_stack s h h0).
Qed.

(** X22. When the first selector that does not resolve fails with a
    [BadSelectorException], [_resolve_selectors] fails with [NotFound]
    (exit code 11) and the message of that exception, whatever the later
    selectors are and whether or not an empty result is allowed. *)
Theorem X22_resolve_selectors_NotFound (pre : list string) (s : string)
    (post : list string) (fail_if_empty : bool) (h : Heap) (msg : string) :
  Forall (λ x, ∃ r, (Ads_resolve x h).1 = Return r) pre →
  (Ads_resolve s h).1 = Raise (BadSelectorException msg) →
  (_resolve_selectors (pre ++ s :: post) fail_if_empty h).1
  = Failed (AdsCommandException 11 (Some msg)).
Proof.
  intros Hpre Hs. rewrite _resolve_selectors_unfold. cbv zeta.
  assert ((if bool_decide (length (pre ++ s :: post) = 0)
           then ["default"] else pre ++ s :: post) = pre ++ s :: post)
    as -> by (by destruct pre).
  pose proof (mapM_Ads_resolve_first_failure pre s post h _ Hpre Hs) as Hmap.
  destruct (mapM Ads_resolve (pre ++ s :: post) h) as [[rs|e] h1];
    simpl in Hmap; [done|].
  by injection Hmap as ->.
Qed.

Lemma X22_witness :
  (_resolve_selectors (["api"] ++ "zz" :: ["nothing-else"]) false
     (example_heap scenario_groups)).1
  = Failed (AdsCommandException 11
              (Some "No service or selector named 'zz'. Reference chain: zz")).
Proof.
  apply (X22_resolve_selectors_NotFound ["api"] "zz" ["nothing-else"] false
           (example_heap scenario_groups)).
  - repeat constructor. exists {[ "api" ]}. vm_compute. reflexivity.
  - vm_compute. reflexivity.
Defined.
